(** * MathLive macro atoms: argument recovery by template matching

    A shallow embedding of the macro atom module of MathLive: the class
    [MacroAtom] (constructor, [fromJson], [toJson], [_serialize],
    [applyStyle], [reloadArgs]), the walk [reloadParentsMacros] and the
    template matcher [extractArgumentsWithOrder], with the properties that
    the specification of the macro node states about them.

    JavaScript strings are sequences of UTF-16 code units; a code unit is
    modelled as an [N] and a string as a list of code units.  The methods
    inherited from [Atom] that the module calls ([bodyToLatex],
    [applyStyle]) are parameters.  The regular expressions are modelled by
    the terms they parse to and a backtracking matcher over these terms.

    The file has three parts: the embedding; auxiliary notions used in the
    statements and proofs; the properties, among them the claims of the
    specification, each marked by its number (C1 to C10). *)

From Stdlib Require Import NArith ZArith Lia List String Ascii Bool.
From stdpp Require Import base option list gmap strings.

Set Default Proof Using "Type".
Open Scope N_scope.

(** ** JavaScript strings *)

Module JS.

Definition char := N.
Definition jsstring := list char.

(** A literal, written as a Rocq string, as a sequence of code units. *)
Fixpoint str (s : string) : jsstring :=
  match s with
  | EmptyString => []
  | String a s' => N_of_ascii a :: str s'
  end.

Definition ch (a : ascii) : char := N_of_ascii a.

Definition inb (c : char) (l : jsstring) : bool := existsb (N.eqb c) l.

Fixpoint eqb (s t : jsstring) : bool :=
  match s, t with
  | [], [] => true
  | a :: s', b :: t' => N.eqb a b && eqb s' t'
  | _, _ => false
  end.

(** [s.startsWith(p)] *)
Fixpoint startsWith (p s : jsstring) : bool :=
  match p, s with
  | [], _ => true
  | a :: p', b :: s' => N.eqb a b && startsWith p' s'
  | _ :: _, [] => false
  end.

(** WhiteSpace and LineTerminator code points of ECMAScript, the ones
    [String.prototype.trim] strips. *)
Definition isLineTerminator (c : char) : bool :=
  inb c [0x0A; 0x0D; 0x2028; 0x2029].

Definition isWhiteSpace (c : char) : bool :=
  inb c [0x09; 0x0B; 0x0C; 0x20; 0xA0; 0x1680; 0x202F; 0x205F; 0x3000; 0xFEFF]
  || ((0x2000 <=? c) && (c <=? 0x200A))
  || isLineTerminator c.

Fixpoint trimStart (s : jsstring) : jsstring :=
  match s with
  | c :: s' => if isWhiteSpace c then trimStart s' else s
  | [] => []
  end.

Definition trimEnd (s : jsstring) : jsstring := rev (trimStart (rev s)).

(** [s.trim()] *)
Definition trim (s : jsstring) : jsstring := trimEnd (trimStart s).

(** A value that may be [undefined] or [null]. *)
Inductive Nullable (A : Type) : Type :=
  | Undefined
  | Null
  | Val (a : A).
Arguments Undefined {A}.
Arguments Null {A}.
Arguments Val {A} a.

(** Truthiness of a string-or-nullish value: only a non-empty string. *)
Definition truthy (v : Nullable jsstring) : bool :=
  match v with
  | Val (_ :: _) => true
  | _ => false
  end.

(** [v ?? d] *)
Definition nullish {A} (v : Nullable A) (d : A) : A :=
  match v with
  | Val a => a
  | _ => d
  end.

(** The outcome of a call: a returned value or a thrown exception. *)
Inductive Exception : Type :=
  | Error (message : jsstring)
  | SyntaxError.

Inductive Completion (A : Type) : Type :=
  | Return (a : A)
  | Throw (e : Exception).
Arguments Return {A} a.
Arguments Throw {A} e.

End JS.

Import JS.

(** ** The regular expressions that [extractArgumentsWithOrder] builds *)

Module RegExp.

Definition backslash : char := ch "\".
Definition hash : char := ch "#".

(** The syntax characters of an ECMAScript pattern. *)
Definition isSyntaxCharacter (c : char) : bool := inb c (str "^$\.*+?()[]{}|").

Definition isDigit (c : char) : bool := (48 <=? c) && (c <=? 57).

(** The terms a pattern of the generated shape parses to. *)
Inductive Term : Type :=
  | PatternChar (c : char)   (* a literal code unit, escaped or not *)
  | AssertStart              (* [^] *)
  | AssertEnd                (* [$] *)
  | LazyGroup.               (* the capture group [(.*?)] *)

(** [new RegExp(source)] for the fragment of the pattern syntax that the
    generated sources use: identity escapes of syntax characters, the two
    assertions, the group [(.*?)] and literal characters.  [None] stands
    for a source outside this fragment. *)
Fixpoint parse (source : jsstring) : option (list Term) :=
  match source with
  | [] => Some []
  | c :: rest =>
    if c =? backslash then
      match rest with
      | e :: rest' =>
        if isSyntaxCharacter e then cons (PatternChar e) <$> parse rest'
        else None
      | [] => None
      end
    else if c =? ch "^" then cons AssertStart <$> parse rest
    else if c =? ch "$" then cons AssertEnd <$> parse rest
    else if c =? ch "(" then
      match rest with
      | c1 :: c2 :: c3 :: c4 :: rest' =>
        if (c1 =? ch ".") && (c2 =? ch "*") && (c3 =? ch "?") && (c4 =? ch ")")
        then cons LazyGroup <$> parse rest'
        else None
      | _ => None
      end
    else if isSyntaxCharacter c then None
    else cons (PatternChar c) <$> parse rest
  end.

(** The capture group [(.*?)] followed by the rest of the pattern,
    [continue].  The rest is tried first with the capture as it is; only
    when that fails does the group take one more character, which [.]
    accepts unless it is a line terminator.  [captured] holds the text
    taken so far, last character first. *)
Fixpoint lazyGroup (continue : bool -> jsstring -> option (list jsstring))
  (captured : jsstring) (atStart : bool) (input : jsstring)
  : option (list jsstring) :=
  match continue atStart input with
  | Some caps => Some (rev captured :: caps)
  | None =>
    match input with
    | x :: input' =>
      if isLineTerminator x then None
      else lazyGroup continue (x :: captured) false input'
    | [] => None
    end
  end.

(** Backtracking match of a term sequence at one position of the input.
    [atStart] tells whether the position is index 0.  The result lists the
    texts of the capture groups, in group order. *)
Fixpoint matchTerms (ts : list Term) : bool -> jsstring -> option (list jsstring) :=
  match ts with
  | [] => fun _ _ => Some []
  | PatternChar c :: ts' => fun _ input =>
    match input with
    | x :: input' => if c =? x then matchTerms ts' false input' else None
    | [] => None
    end
  | AssertStart :: ts' => fun atStart input =>
    if atStart then matchTerms ts' atStart input else None
  | AssertEnd :: ts' => fun atStart input =>
    match input with
    | [] => matchTerms ts' atStart input
    | _ :: _ => None
    end
  | LazyGroup :: ts' => lazyGroup (matchTerms ts') []
  end.

(** [regex.exec(input)] for a regex without flags: the first start index,
    from 0 on, at which the pattern matches. *)
Fixpoint execFrom (ts : list Term) (atStart : bool) (input : jsstring)
  : option (list jsstring) :=
  match matchTerms ts atStart input with
  | Some caps => Some caps
  | None =>
    match input with
    | [] => None
    | _ :: input' => execFrom ts false input'
    end
  end.

(** [input.match(regex)]: the capture groups [matchResult[1..]], or [None]
    for [null]. *)
Definition exec (ts : list Term) (input : jsstring) : option (list jsstring) :=
  execFrom ts true input.

(** [s.replace(new RegExp(pat, 'g'), rep)] for a non-empty pattern [pat] of
    literal characters and a replacement without [$]: every occurrence of [pat],
    found left to right without overlap, becomes [rep].  [skip] counts the
    characters of the current occurrence still to be passed over. *)
Fixpoint replaceAllFrom (pat rep : jsstring) (skip : nat) (s : jsstring) : jsstring :=
  match s with
  | [] => []
  | c :: s' =>
    match skip with
    | S k => replaceAllFrom pat rep k s'
    | O =>
      if startsWith pat s then rep ++ replaceAllFrom pat rep (pred (length pat)) s'
      else c :: replaceAllFrom pat rep O s'
    end
  end.

Definition replaceAll (pat rep s : jsstring) : jsstring := replaceAllFrom pat rep O s.

End RegExp.

Import RegExp.

(** ** The template matcher: [extractArgumentsWithOrder] *)

Module Matcher.

(** [template.replace(/([.*+?^${}()|[\]\\])/g, '\\$1')]: a backslash goes
    before every syntax character. *)
Fixpoint escapeTemplate (template : jsstring) : jsstring :=
  match template with
  | [] => []
  | c :: t' =>
    if isSyntaxCharacter c then backslash :: c :: escapeTemplate t'
    else c :: escapeTemplate t'
  end.

(** The longest run of decimal digits at the head of [s]: what [(\d+)] takes. *)
Fixpoint takeDigits (s : jsstring) : jsstring :=
  match s with
  | c :: s' => if isDigit c then c :: takeDigits s' else []
  | [] => []
  end.

(** The successive results of [placeholderRegex.exec(template)] for
    [/\#(\d+)/g], each given by its group [match[1]].  After a match the
    scan resumes behind its digits; resuming at its first digit, as here,
    finds the same matches, since a match starts at a [#]. *)
Fixpoint placeholderMatches (template : jsstring) : list jsstring :=
  match template with
  | [] => []
  | c :: t' =>
    if c =? hash then
      match takeDigits t' with
      | [] => placeholderMatches t'
      | ds => ds :: placeholderMatches t'
      end
    else placeholderMatches t'
  end.

(** The string [`\#${match[1]}`]: in a template literal [\#] is [#]. *)
Definition placeholderName (digits : jsstring) : jsstring := hash :: digits.

Definition captureGroup : jsstring := str "(.*?)".

(** The body of the [while] loop, run for every match in turn: the name is
    pushed on [placeholders] and every occurrence of it in
    [escapedTemplate] becomes a capture group. *)
Definition substitutePlaceholders (matches : list jsstring) (escapedTemplate : jsstring)
  : jsstring :=
  fold_left (fun escaped digits => replaceAll (placeholderName digits) captureGroup escaped)
            matches escapedTemplate.

(** [placeholders.forEach((placeholder, index) => output[placeholder] =
    matchResult[index + 1])], from index [index] on.  [matchResult] lists
    the texts of the groups only, without the full match at its head, so
    that the [matchResult[index + 1]] of the source is its element
    [index].  A property of [output] holds [None] when the value stored is
    [undefined]. *)
Fixpoint fillOutput (placeholders : list jsstring) (index : nat)
  (matchResult : list jsstring) (output : gmap jsstring (option jsstring))
  : gmap jsstring (option jsstring) :=
  match placeholders with
  | [] => output
  | placeholder :: rest =>
    fillOutput rest (S index) matchResult (<[placeholder := matchResult !! index]> output)
  end.

(** [`#${i + 1}`] for [i] below 8: one decimal digit. *)
Definition slotName (i : nat) : jsstring := [hash; N.of_nat (49 + i)].

(** [output[name]?.trim()]; [None] is [undefined]. *)
Definition readSlot (output : gmap jsstring (option jsstring)) (name : jsstring)
  : option jsstring :=
  trim <$> mjoin (output !! name).

(** [while (result.length && result[result.length - 1] === undefined)
    result.pop()] *)
Fixpoint popUndefined (result : list (option jsstring)) : list (option jsstring) :=
  match result with
  | [] => []
  | x :: rest =>
    match popUndefined rest, x with
    | [], None => []
    | rest', _ => x :: rest'
    end
  end.

Definition noTemplate : Exception := Error (str "No template provided").

(** The source of the regex, [`^${escapedTemplate}$`]. *)
Definition regexSource (template : jsstring) : jsstring :=
  str "^" ++ substitutePlaceholders (placeholderMatches template) (escapeTemplate template)
    ++ str "$".

Definition extractArgumentsWithOrder (template inputString : jsstring)
  : Completion (option (list (option jsstring))) :=
  match template with
  | [] => Throw noTemplate
  | _ :: _ =>
    match inputString with
    | [] => Return None
    | _ :: _ =>
      let placeholders := map placeholderName (placeholderMatches template) in
      match parse (regexSource template) with
      | None => Throw SyntaxError
      | Some regex =>
        match exec regex inputString with
        | Some matchResult =>
          let output := fillOutput placeholders 0 matchResult ∅ in
          let result := map (fun i => readSlot output (slotName i)) (seq 0 8) in
          Return (Some (popUndefined result))
        | None => Return None
        end
      end
    end
  end.

End Matcher.

Import Matcher.

(** ** Macro atoms *)

(** A style attribute value: a string (a colour, a font family) or a
    number (a font size). *)
Inductive StyleValue : Type :=
  | StyleString (s : jsstring)
  | StyleNumber (n : Z).

(** A [Style] object, as a map from attribute names to values. *)
Abbreviation Style := (gmap string StyleValue).

(** Truthiness of an attribute value. *)
Definition styleTruthy (v : StyleValue) : bool :=
  match v with
  | StyleString s => match s with [] => false | _ :: _ => true end
  | StyleNumber n => negb (n =? 0)%Z
  end.

(** [if (source.key) target.key = source.key] *)
Definition copyIfTruthy (key : string) (source target : Style) : Style :=
  match source !! key with
  | Some v => if styleTruthy v then <[key := v]> target else target
  | None => target
  end.

(** The options of [Atom.bodyToLatex] that the macro atom reads or sets. *)
Record ToLatexOptions : Type := {
  expandMacro : option bool;
  defaultMode : option string;
}.

Section MacroAtom.

(** The body of an atom, [Readonly<Atom[]>], is left abstract. *)
Context {Body : Type}.

(** The fields of a macro atom: [type], [command], [style], [body] and
    [captureSelection] are those of [Atom], the first three set by
    [super(...)]; the rest are its own. *)
Record MacroAtom : Type := {
  type : jsstring;
  command : jsstring;
  style : Style;
  body : Body;
  captureSelection : option bool;
  _macroArgs : Nullable jsstring;
  expand : bool;
  def : jsstring;
}.

Definition macroArgs (this : MacroAtom) : Nullable jsstring := _macroArgs this.

(** The [options] argument of the constructor. *)
Record MacroOptions : Type := {
  opt_expand : option bool;
  opt_args : Nullable jsstring;
  opt_body : Body;
  opt_captureSelection : option bool;
  opt_style : Style;
  opt_def : jsstring;
}.

(** [new MacroAtom(macro, options)] *)
Definition new_MacroAtom (macro : jsstring) (options : MacroOptions) : MacroAtom :=
  {| type := str "macro";
     command := macro;
     style := opt_style options;
     body := opt_body options;
     captureSelection :=
       match opt_captureSelection options with
       | None => if truthy (opt_args options) then Some false else Some true
       | Some b => Some b
       end;
     _macroArgs := opt_args options;
     expand := default false (opt_expand options);
     def := opt_def options |}.

(** A snapshot [AtomJson]: an object whose properties are all optional
    apart from [type]; [None] and [Undefined] are absent properties. *)
Record AtomJson : Type := {
  json_type : jsstring;
  json_command : option jsstring;
  json_style : Style;
  json_body : Body;
  json_expand : option bool;
  json_captureSelection : option bool;
  json_args : Nullable jsstring;
  json_def : option jsstring;
}.

(** Modelled from the spec: [Atom.toJson], the snapshot routine of the
    generic tree node, is not part of the macro atom module.  It writes the
    fields shared by all nodes (type, command, style, body) and none of the
    macro atom's own. *)
Definition Atom_toJson (this : MacroAtom) : AtomJson :=
  {| json_type := type this;
     json_command := Some (command this);
     json_style := style this;
     json_body := body this;
     json_expand := None;
     json_captureSelection := None;
     json_args := Undefined;
     json_def := None |}.

Definition set_expand (v : bool) (o : AtomJson) : AtomJson :=
  {| json_type := json_type o; json_command := json_command o;
     json_style := json_style o; json_body := json_body o;
     json_expand := Some v;
     json_captureSelection := json_captureSelection o;
     json_args := json_args o; json_def := json_def o |}.

Definition set_captureSelection (v : bool) (o : AtomJson) : AtomJson :=
  {| json_type := json_type o; json_command := json_command o;
     json_style := json_style o; json_body := json_body o;
     json_expand := json_expand o;
     json_captureSelection := Some v;
     json_args := json_args o; json_def := json_def o |}.

Definition set_args (v : Nullable jsstring) (o : AtomJson) : AtomJson :=
  {| json_type := json_type o; json_command := json_command o;
     json_style := json_style o; json_body := json_body o;
     json_expand := json_expand o;
     json_captureSelection := json_captureSelection o;
     json_args := v; json_def := json_def o |}.

Definition set_def (v : jsstring) (o : AtomJson) : AtomJson :=
  {| json_type := json_type o; json_command := json_command o;
     json_style := json_style o; json_body := json_body o;
     json_expand := json_expand o;
     json_captureSelection := json_captureSelection o;
     json_args := json_args o; json_def := Some v |}.

Definition toJson (this : MacroAtom) : AtomJson :=
  let options := Atom_toJson this in
  let options := if expand this then set_expand true options else options in
  let options :=
    match captureSelection this with
    | Some b => set_captureSelection b options
    | None => options
    end in
  let options :=
    if truthy (macroArgs this) then set_args (macroArgs this) options else options in
  set_def (def this) options.

(** [new MacroAtom(json.command, json as any)].  The constructor takes
    strings for the command and the definition: a snapshot without them is
    outside its type, and gives [None] here. *)
Definition fromJson (json : AtomJson) : option MacroAtom :=
  match json_command json, json_def json with
  | Some macro, Some d =>
    Some (new_MacroAtom macro
            {| opt_expand := json_expand json;
               opt_args := json_args json;
               opt_body := json_body json;
               opt_captureSelection := json_captureSelection json;
               opt_style := json_style json;
               opt_def := d |})
  | _, _ => None
  end.

(** [Atom.bodyToLatex], the serializer of the generic tree node, applied
    to the body of the atom. *)
Variable bodyToLatex : Body -> ToLatexOptions -> jsstring.

Definition _serialize (this : MacroAtom) (options : ToLatexOptions) : jsstring :=
  if default false (expandMacro options) && expand this
  then bodyToLatex (body this) options
  else command this ++ nullish (macroArgs this) [].

(** The style that [applyStyle] hands on. *)
Definition allowedStyle (style : Style) : Style :=
  let allowed : Style := ∅ in
  let allowed := copyIfTruthy "color" style allowed in
  copyIfTruthy "backgroundColor" style allowed.

(** [Atom.applyStyle], the style routine of the generic tree node. *)
Variable Atom_applyStyle : MacroAtom -> Style -> option bool -> MacroAtom.

Definition applyStyle (this : MacroAtom) (style : Style) (options : option bool)
  : MacroAtom :=
  Atom_applyStyle this (allowedStyle style) options.

(** [`{${arg || ''}}`] *)
Definition encodeArgument (arg : option jsstring) : jsstring :=
  str "{" ++ default [] arg ++ str "}".

Definition set_macroArgs (v : Nullable jsstring) (this : MacroAtom) : MacroAtom :=
  {| type := type this; command := command this; style := style this;
     body := body this; captureSelection := captureSelection this;
     _macroArgs := v; expand := expand this; def := def this |}.

Definition reloadArgsOptions : ToLatexOptions :=
  {| expandMacro := Some false; defaultMode := Some "math"%string |}.

(** [reloadArgs()]: the atom after the call, or the exception the call
    ends with. *)
Definition reloadArgs (this : MacroAtom) : Completion MacroAtom :=
  let bodyLatex := bodyToLatex (body this) reloadArgsOptions in
  match extractArgumentsWithOrder (def this) bodyLatex with
  | Throw e => Throw e
  | Return args =>
    Return (set_macroArgs
              match args with
              | Some args => Val (concat (map encodeArgument args))
              | None => Null
              end this)
  end.

End MacroAtom.

Arguments MacroAtom Body : clear implicits.
Arguments MacroOptions Body : clear implicits.
Arguments AtomJson Body : clear implicits.

(** ** The tree and [reloadParentsMacros] *)

Section Tree.

Context {Body : Type}.

(** Atoms are objects of a heap, designated by references. *)
Definition AtomRef := positive.

(** An object of the heap: a [MacroAtom], or an atom of another class, of
    which only the [type] matters here; and its [parent], [None] for
    [undefined]. *)
Inductive AtomObject : Type :=
  | IsMacroAtom (this : MacroAtom Body)
  | IsOtherAtom (type : jsstring).

Record TreeAtom : Type := {
  object : AtomObject;
  parent : option AtomRef;
}.

Abbreviation Heap := (gmap AtomRef TreeAtom).

Definition atomType (a : TreeAtom) : jsstring :=
  match object a with
  | IsMacroAtom this => type this
  | IsOtherAtom t => t
  end.

(** [a instanceof MacroAtom] *)
Definition instanceofMacroAtom (a : TreeAtom) : bool :=
  match object a with
  | IsMacroAtom _ => true
  | IsOtherAtom _ => false
  end.

(** [Atom.bodyToLatex] reads the atoms of the body in the heap as it is
    when called. *)
Variable bodyToLatex : Heap -> Body -> ToLatexOptions -> jsstring.

(** The outcome of the walk: the references on which [reloadArgs()] was
    called, in call order, and the heap it leaves or the exception that
    ended it. *)
Definition WalkResult : Type := list AtomRef * Completion Heap.

(** [reloadParentsMacros(parent)].  [fuel] bounds the iterations of the
    [while] loop; [None] is a loop that has not ended within them.  A
    reference of a running program designates an object, so the lookup
    fails for no heap of interest. *)
Fixpoint reloadParentsMacros (fuel : nat) (heap : Heap) (parent_ : option AtomRef)
  : option WalkResult :=
  match parent_ with
  | None => Some ([], Return heap)
  | Some p =>
    match fuel with
    | O => None
    | S fuel' =>
      match heap !! p with
      | None => None
      | Some a =>
        if JS.eqb (atomType a) (str "macro") && instanceofMacroAtom a then
          match object a with
          | IsMacroAtom this =>
            match reloadArgs (bodyToLatex heap) this with
            | Throw e => Some ([p], Throw e)
            | Return this' =>
              let heap' := <[p := {| object := IsMacroAtom this'; parent := parent a |}]> heap in
              match reloadParentsMacros fuel' heap' (parent a) with
              | Some (calls, r) => Some (p :: calls, r)
              | None => None
              end
            end
          | IsOtherAtom _ => reloadParentsMacros fuel' heap (parent a)
          end
        else reloadParentsMacros fuel' heap (parent a)
      end
    end
  end.

(** The ownership chain from a starting reference up to the root. *)
Inductive ancestry (heap : Heap) : option AtomRef -> list AtomRef -> Prop :=
  | ancestry_root : ancestry heap None []
  | ancestry_up p a chain :
      heap !! p = Some a ->
      ancestry heap (parent a) chain ->
      ancestry heap (Some p) (p :: chain).

(** The references of a chain that designate macro nodes. *)
Definition isMacroNode (heap : Heap) (p : AtomRef) : bool :=
  match heap !! p with
  | Some a => JS.eqb (atomType a) (str "macro") && instanceofMacroAtom a
  | None => false
  end.

Definition macrosOf (heap : Heap) (chain : list AtomRef) : list AtomRef :=
  List.filter (isMacroNode heap) chain.

End Tree.

Arguments AtomObject Body : clear implicits.
Arguments TreeAtom Body : clear implicits.

(** ** A structured view of the regex source

    The escaped template, at every stage of the substitution loop, is a
    sequence of segments: a [#] with the digits that follow it, a capture
    group put in by the loop, or any other character of the template. *)

Module Segments.

Inductive Segment : Type :=
  | Placeholder (digits : jsstring)
  | Literal (c : char)
  | Group.

Definition renderSegment (seg : Segment) : jsstring :=
  match seg with
  | Placeholder ds => hash :: ds
  | Literal c => if isSyntaxCharacter c then [backslash; c] else [c]
  | Group => captureGroup
  end.

Definition render (segs : list Segment) : jsstring :=
  concat (map renderSegment segs).

(** The digits at the head of a segment sequence, and what follows them. *)
Fixpoint leadingDigits (segs : list Segment) : jsstring * list Segment :=
  match segs with
  | Literal c :: segs' =>
    if isDigit c then (c :: fst (leadingDigits segs'), snd (leadingDigits segs'))
    else ([], segs)
  | _ => ([], segs)
  end.

Fixpoint segments (template : jsstring) : list Segment :=
  match template with
  | [] => []
  | c :: t' =>
    if c =? hash
    then Placeholder (fst (leadingDigits (segments t'))) :: snd (leadingDigits (segments t'))
    else Literal c :: segments t'
  end.

Definition noLeadingDigit (segs : list Segment) : Prop :=
  match segs with
  | Literal c :: _ => isDigit c = false
  | _ => True
  end.

Fixpoint wellFormed (segs : list Segment) : Prop :=
  match segs with
  | [] => True
  | Placeholder ds :: rest =>
    forallb isDigit ds = true /\ noLeadingDigit rest /\ wellFormed rest
  | Literal c :: rest => c <> hash /\ wellFormed rest
  | Group :: rest => wellFormed rest
  end.

(** The placeholders still to be substituted, by their digits. *)
Fixpoint pending (segs : list Segment) : list jsstring :=
  match segs with
  | [] => []
  | Placeholder (d :: ds) :: rest => (d :: ds) :: pending rest
  | _ :: rest => pending rest
  end.

Fixpoint groups (segs : list Segment) : nat :=
  match segs with
  | [] => O
  | Group :: rest => S (groups rest)
  | _ :: rest => groups rest
  end.

(** One pass of the loop, on segments. *)
Definition replaceSegment (digits : jsstring) (seg : Segment) : list Segment :=
  match seg with
  | Placeholder ds =>
    if startsWith digits ds then Group :: map Literal (drop (length digits) ds)
    else [seg]
  | _ => [seg]
  end.

Definition replaceSegments (digits : jsstring) (segs : list Segment) : list Segment :=
  concat (map (replaceSegment digits) segs).

Definition substituteSegments (matches : list jsstring) (segs : list Segment)
  : list Segment :=
  fold_left (fun s digits => replaceSegments digits s) matches segs.

Definition termsOf (seg : Segment) : list Term :=
  match seg with
  | Placeholder ds => PatternChar hash :: map PatternChar ds
  | Literal c => [PatternChar c]
  | Group => [LazyGroup]
  end.

Definition terms (segs : list Segment) : list Term := concat (map termsOf segs).

(** The regex of a template, read off its segments. *)
Definition regexOf (template : jsstring) : list Term :=
  AssertStart
    :: terms (substituteSegments (placeholderMatches template) (segments template))
    ++ [AssertEnd].

Fixpoint countGroups (ts : list Term) : nat :=
  match ts with
  | [] => O
  | LazyGroup :: ts' => S (countGroups ts')
  | _ :: ts' => countGroups ts'
  end.

End Segments.

Import Segments.

(** ** Auxiliary notions for the statements *)

(** A string with no white space at either end. *)
Definition noOuterWhiteSpace (s : jsstring) : Prop :=
  (forall c, head s = Some c -> isWhiteSpace c = false) /\
  (forall c, last s = Some c -> isWhiteSpace c = false).

(** A term sequence without [^]. *)
Definition anchorFree (ts : list Term) : bool :=
  forallb (fun t => match t with AssertStart => false | _ => true end) ts.

(** A body given by its serialization, for the examples. *)
Definition LatexBody : Type := jsstring.

Definition latexOf (body : LatexBody) (_ : ToLatexOptions) : jsstring := body.

(** The macro node of the examples: [command] invoked with [args], defined
    by [def], whose body serializes to [body]. *)
Definition exampleMacro (command : string) (args : Nullable jsstring) (def body : string)
  : MacroAtom LatexBody :=
  new_MacroAtom (str command)
    {| opt_expand := None;
       opt_args := args;
       opt_body := str body;
       opt_captureSelection := None;
       opt_style := ∅;
       opt_def := str def |}.

(** Two macro nodes that differ at most in how an absent argument encoding
    is held: [undefined], [null] or the empty string. *)
Definition equivalentNodes {Body : Type} (a b : MacroAtom Body) : Prop :=
  type a = type b ∧ command a = command b ∧ style a = style b ∧ body a = body b
  ∧ captureSelection a = captureSelection b ∧ expand a = expand b ∧ def a = def b
  ∧ nullish (macroArgs a) [] = nullish (macroArgs b) [].

(** The style of the example: a colour and a font weight. *)
Definition redBold : Style :=
  <["color"%string := StyleString (str "red")]>
    (<["fontWeight"%string := StyleString (str "bold")]> ∅).

(** Segments whose placeholders hold digits only. *)
Definition digitsOnly (segs : list Segment) : Prop :=
  Forall (fun seg => match seg with
                     | Placeholder ds => forallb isDigit ds = true
                     | _ => True
                     end) segs.

(** The result array built from the captures of a match. *)
Definition resultOf (template : jsstring) (matchResult : list jsstring)
  : list (option jsstring) :=
  let placeholders := map placeholderName (placeholderMatches template) in
  let output := fillOutput placeholders 0 matchResult ∅ in
  popUndefined (map (fun i => readSlot output (slotName i)) (seq 0 8)).

(** The terms of the regex between [^] and the end. *)
Definition regexBody (template : jsstring) : list Term :=
  terms (substituteSegments (placeholderMatches template) (segments template))
    ++ [AssertEnd].

(** The index of the last occurrence of [key] in a list. *)
Fixpoint lastIndexOf (key : jsstring) (l : list jsstring) : option nat :=
  match l with
  | [] => None
  | x :: l' =>
    match lastIndexOf key l' with
    | Some j => Some (S j)
    | None => if decide (x = key) then Some O else None
    end
  end.

(** The macro nodes of a chain all have a definition template. *)
Definition definedMacros {Body : Type} (heap : gmap AtomRef (TreeAtom Body))
  (chain : list AtomRef) : Prop :=
  forall p a this,
    In p chain -> heap !! p = Some a -> object a = IsMacroAtom this -> def this <> [].

(** The tree of the example: root, macroA, plainNode, macroB, editedLeaf,
    each the parent of the next. *)
Definition root : AtomRef := 1%positive.
Definition macroA : AtomRef := 2%positive.
Definition plainNode : AtomRef := 3%positive.
Definition macroB : AtomRef := 4%positive.
Definition editedLeaf : AtomRef := 5%positive.

Definition exampleTree : gmap AtomRef (TreeAtom LatexBody) :=
  <[root := {| object := IsOtherAtom (str "root"); parent := None |}]>
  (<[macroA := {| object := IsMacroAtom (exampleMacro "\A" (Val (str "{x}")) "a#1" "ax");
                 parent := Some root |}]>
  (<[plainNode := {| object := IsOtherAtom (str "group"); parent := Some macroA |}]>
  (<[macroB := {| object := IsMacroAtom (exampleMacro "\B" (Val (str "{y}")) "b#1" "by");
                 parent := Some plainNode |}]>
  (<[editedLeaf := {| object := IsOtherAtom (str "mord"); parent := Some macroB |}]> ∅)))).

(** The serializer of the example reads the body alone. *)
Definition exampleSerializer (_ : gmap AtomRef (TreeAtom LatexBody))
  : LatexBody -> ToLatexOptions -> jsstring := latexOf.

(** ** Templates given by their pieces

    A template is described by the text before its first placeholder and,
    for every placeholder, its number and the text that follows it. *)

Definition digitChar (d : nat) : char := N.of_nat (48 + d).

Definition templateOf (lead : jsstring) (pieces : list (nat * jsstring)) : jsstring :=
  lead ++ concat (map (fun p => hash :: digitChar (fst p) :: snd p) pieces).

(** The argument for placeholder [#d], among the arguments in order. *)
Definition argument (args : list jsstring) (d : nat) : jsstring := nth (pred d) args [].

(** The template with every placeholder replaced by its argument. *)
Definition expansionOf (args : list jsstring) (lead : jsstring)
  (pieces : list (nat * jsstring)) : jsstring :=
  lead ++ concat (map (fun p => argument args (fst p) ++ snd p) pieces).

(** The arguments as written after the command: each between braces. *)
Definition encodingOf (args : list jsstring) : jsstring :=
  concat (map (fun a => str "{" ++ a ++ str "}") args).

(** The text after a placeholder holds no [#] and does not begin with a
    digit. *)
Definition plainPiece (p : nat * jsstring) : Prop :=
  ~ In hash (snd p) ∧ (forall c, head (snd p) = Some c -> isDigit c = false).

(** Every placeholder but the last is followed by a text whose first
    character does not occur in the argument of the placeholder. *)
Fixpoint separated (args : list jsstring) (pieces : list (nat * jsstring)) : Prop :=
  match pieces with
  | [] => True
  | p :: rest =>
    match rest with
    | [] => True
    | _ :: _ =>
      match snd p with
      | c :: _ => ~ In c (argument args (fst p))
      | [] => False
      end
    end ∧ separated args rest
  end.

(** An argument without white space at its ends and without line
    terminator. *)
Definition cleanArgument (a : jsstring) : Prop :=
  noOuterWhiteSpace a ∧ forallb (fun c => negb (isLineTerminator c)) a = true.

(** The segments of the pieces once the placeholders whose digit is in
    [replaced] have been substituted. *)
Definition pieceSegments (replaced : jsstring) (p : nat * jsstring) : list Segment :=
  (if inb (digitChar (fst p)) replaced then Group else Placeholder [digitChar (fst p)])
    :: map Literal (snd p).

Definition piecesSegments (replaced : jsstring) (pieces : list (nat * jsstring))
  : list Segment :=
  concat (map (pieceSegments replaced) pieces).

Definition piecesTerms (pieces : list (nat * jsstring)) : list Term :=
  concat (map (fun p => LazyGroup :: map PatternChar (snd p)) pieces).

(** ** Auxiliary notions for the further properties *)

(** A text without line terminator. *)
Definition lineFree (a : jsstring) : Prop :=
  forallb (fun c => negb (isLineTerminator c)) a = true.

(** The text that a term sequence spells when its groups, in order, hold
    the given captures. *)
Fixpoint fillCaptures (ts : list Term) (captures : list jsstring) : jsstring :=
  match ts with
  | [] => []
  | PatternChar c :: ts' => c :: fillCaptures ts' captures
  | LazyGroup :: ts' =>
    match captures with
    | a :: rest => a ++ fillCaptures ts' rest
    | [] => fillCaptures ts' []
    end
  | _ :: ts' => fillCaptures ts' captures
  end.

(** Two objects of the heap that differ at most in the argument encoding
    of a macro atom. *)
Definition sameButArgs {Body : Type} (a a' : TreeAtom Body) : Prop :=
  parent a' = parent a
  ∧ match object a, object a' with
    | IsMacroAtom this, IsMacroAtom this' => exists v, this' = set_macroArgs v this
    | IsOtherAtom t, IsOtherAtom t' => t' = t
    | _, _ => False
    end.

(** A tree whose nearest macro node, [macroB], lost its definition
    template: root, macroA, macroB and a leaf, each the parent of the next. *)
Definition brokenTree : gmap AtomRef (TreeAtom LatexBody) :=
  <[root := {| object := IsOtherAtom (str "root"); parent := None |}]>
  (<[macroA := {| object := IsMacroAtom (exampleMacro "\A" (Val (str "{x}")) "a#1" "ax");
                 parent := Some root |}]>
  (<[macroB := {| object := IsMacroAtom (exampleMacro "\B" (Val (str "{y}")) "" "by");
                 parent := Some macroA |}]>
  (<[editedLeaf := {| object := IsOtherAtom (str "mord"); parent := Some macroB |}]> ∅))).

(** A term sequence of literal characters and capture groups only. *)
Definition literalsAndGroups (ts : list Term) : bool :=
  forallb (fun t => match t with PatternChar _ | LazyGroup => true | _ => false end) ts.

(** The order in which the lazy groups choose among the ways to split an
    input: the first group that differs is the shorter one. *)
Fixpoint shortestFirst (captures others : list jsstring) : Prop :=
  match captures, others with
  | a :: rest, a' :: rest' =>
    (length a < length a')%nat \/ (a = a' /\ shortestFirst rest rest')
  | _, _ => True
  end.

(** * Properties *)

#[local] Arguments N.eqb : simpl never.
#[local] Arguments N.leb : simpl never.

(** ** Strings *)

Lemma eqb_eq (s t : jsstring) : JS.eqb s t = true <-> s = t.
Proof.
  revert t; induction s as [|a s IH]; intros [|b t]; simpl; try (split; congruence).
  rewrite andb_true_iff, N.eqb_eq, IH. split.
  - intros [-> ->]. done.
  - intros [= -> ->]. done.
Qed.

Lemma eqb_refl (s : jsstring) : JS.eqb s s = true.
Proof. by apply eqb_eq. Qed.

Lemma inb_true (c : char) (l : jsstring) : inb c l = true <-> c ∈ l.
Proof.
  unfold inb. rewrite existsb_exists. setoid_rewrite N.eqb_eq.
  rewrite list_elem_of_In. split; [intros (x & Hx & ->); done | eauto].
Qed.

Lemma inb_false (c : char) (l : jsstring) : inb c l = false <-> c ∉ l.
Proof.
  rewrite <- inb_true. destruct (inb c l); split; done.
Qed.

Lemma startsWith_app (p s : jsstring) : startsWith p (p ++ s) = true.
Proof. induction p as [|a p IH]; simpl; [done|]. by rewrite N.eqb_refl. Qed.

Lemma startsWith_refl (p : jsstring) : startsWith p p = true.
Proof. rewrite <- (app_nil_r p) at 2. apply startsWith_app. Qed.

Lemma startsWith_inv (p s : jsstring) :
  startsWith p s = true -> s = p ++ drop (length p) s.
Proof.
  revert s; induction p as [|a p IH]; intros [|b s]; simpl; try done.
  rewrite andb_true_iff, N.eqb_eq. intros [-> H]. f_equal. by apply IH.
Qed.

(** ** Characters *)

Ltac char_cases H :=
  repeat (apply elem_of_cons in H as [->|H]); [..|by apply elem_of_nil in H].

Lemma syntax_not_hash (c : char) : isSyntaxCharacter c = true -> c <> hash.
Proof. intros H ->. by vm_compute in H. Qed.

Lemma digit_not_hash (c : char) : isDigit c = true -> c <> hash.
Proof. intros H ->. by vm_compute in H. Qed.

Lemma digit_not_syntax (c : char) : isDigit c = true -> isSyntaxCharacter c = false.
Proof.
  intros H. apply inb_false. intros Hin. vm_compute str in Hin.
  char_cases Hin; by vm_compute in H.
Qed.

Lemma digits_not_syntax (ds : jsstring) :
  forallb isDigit ds = true -> forallb (fun c => negb (isSyntaxCharacter c)) ds = true.
Proof.
  induction ds as [|d ds IH]; simpl; [done|].
  rewrite !andb_true_iff. intros [Hd Hds]. split; [|by apply IH].
  by rewrite digit_not_syntax.
Qed.

Lemma hash_not_syntax : isSyntaxCharacter hash = false.
Proof. reflexivity. Qed.

(** ** Trimming *)

Lemma last_rev {A} (l : list A) : last (rev l) = head l.
Proof. destruct l as [|x l]; simpl; [done|]. apply last_snoc. Qed.

Lemma trimStart_split (s : jsstring) :
  exists l, s = l ++ trimStart s /\ forallb isWhiteSpace l = true.
Proof.
  induction s as [|c s (l & Hl & Hws)]; simpl; [by exists []|].
  destruct (isWhiteSpace c) eqn:Hc; [|by exists []].
  exists (c :: l). simpl. rewrite Hc, Hws. split; [by f_equal|done].
Qed.

Lemma trimStart_head (s : jsstring) (c : char) :
  head (trimStart s) = Some c -> isWhiteSpace c = false.
Proof.
  induction s as [|x s IH]; simpl; [done|].
  destruct (isWhiteSpace x) eqn:Hx; [done|]. simpl. by intros [= <-].
Qed.

Lemma trimStart_fixed (s : jsstring) :
  (forall c, head s = Some c -> isWhiteSpace c = false) -> trimStart s = s.
Proof. destruct s as [|x s]; simpl; [done|]. intros H. by rewrite (H x). Qed.

Lemma trimStart_snoc (l : jsstring) (c : char) (r : jsstring) :
  isWhiteSpace c = false -> trimStart (l ++ c :: r) = trimStart l ++ c :: r.
Proof.
  intros Hc. induction l as [|x l IH]; simpl; [by rewrite Hc|].
  by destruct (isWhiteSpace x).
Qed.

Lemma trimEnd_split (s : jsstring) :
  exists r, s = trimEnd s ++ r /\ forallb isWhiteSpace r = true.
Proof.
  unfold trimEnd. destruct (trimStart_split (rev s)) as (l & Hl & Hws).
  exists (rev l). split.
  - rewrite <- rev_app_distr, <- Hl. by rewrite rev_involutive.
  - rewrite forallb_forall in *. intros x Hx. apply Hws. by apply in_rev.
Qed.

Lemma trimEnd_last (s : jsstring) (c : char) :
  last (trimEnd s) = Some c -> isWhiteSpace c = false.
Proof.
  unfold trimEnd. rewrite last_rev. apply trimStart_head.
Qed.

Lemma trimEnd_head (s : jsstring) (c : char) :
  (forall x, head s = Some x -> isWhiteSpace x = false) ->
  head (trimEnd s) = Some c -> isWhiteSpace c = false.
Proof.
  destruct s as [|x s]; [by vm_compute|].
  intros Hx. specialize (Hx x eq_refl). unfold trimEnd. simpl.
  rewrite trimStart_snoc by done. rewrite rev_app_distr. simpl. by intros [= <-].
Qed.

Lemma trim_noOuterWhiteSpace (s : jsstring) : noOuterWhiteSpace (trim s).
Proof.
  split; intros c.
  - apply trimEnd_head, trimStart_head.
  - apply trimEnd_last.
Qed.

(** [trim] removes white space at the two ends, and nothing else. *)
Lemma trim_split (s : jsstring) :
  exists l r, s = l ++ trim s ++ r /\
    forallb isWhiteSpace l = true /\ forallb isWhiteSpace r = true.
Proof.
  destruct (trimStart_split s) as (l & Hl & Hwl).
  destruct (trimEnd_split (trimStart s)) as (r & Hr & Hwr).
  exists l, r. unfold trim. by rewrite <- Hr.
Qed.

Lemma trim_fixed (s : jsstring) : noOuterWhiteSpace s -> trim s = s.
Proof.
  intros [Hh Hl]. unfold trim. rewrite (trimStart_fixed s Hh).
  unfold trimEnd. rewrite trimStart_fixed; [apply rev_involutive|].
  intros c Hc. apply Hl. by rewrite <- (rev_involutive s), last_rev.
Qed.

Lemma trim_idempotent (s : jsstring) : trim (trim s) = trim s.
Proof. apply trim_fixed, trim_noOuterWhiteSpace. Qed.

(** ** The backtracking matcher *)

Lemma execFrom_anchored_false (ts : list Term) (s : jsstring) :
  execFrom (AssertStart :: ts) false s = None.
Proof. induction s as [|x s IH]; simpl; [done|]. apply IH. Qed.

(** A pattern that begins with [^] can only match at index 0. *)
Lemma exec_anchored (ts : list Term) (s : jsstring) :
  exec (AssertStart :: ts) s = matchTerms ts true s.
Proof.
  unfold exec. destruct s as [|x s]; simpl.
  - by destruct (matchTerms ts true []).
  - destruct (matchTerms ts true (x :: s)); [done|]. apply execFrom_anchored_false.
Qed.

Lemma lazyGroup_ext (k k' : bool -> jsstring -> option (list jsstring))
  (acc : jsstring) (b b' : bool) (s : jsstring) :
  (forall s', k b s' = k' b' s') -> (forall s', k false s' = k' false s') ->
  lazyGroup k acc b s = lazyGroup k' acc b' s.
Proof.
  intros Hb Hf. revert acc b b' Hb.
  induction s as [|x s IH]; intros acc b b' Hb; simpl; rewrite Hb; [done|].
  destruct (k' b' (x :: s)); [done|].
  destruct (isLineTerminator x); [done|]. by apply IH.
Qed.

Lemma matchTerms_atStart (ts : list Term) (b b' : bool) (s : jsstring) :
  anchorFree ts = true -> matchTerms ts b s = matchTerms ts b' s.
Proof.
  revert b b' s. induction ts as [|t ts IH]; intros b b' s Hfree; [done|].
  simpl in Hfree. apply andb_true_iff in Hfree as [Ht Hfree].
  destruct t; simpl; try done.
  - destruct s; [|done]. by apply IH.
  - apply lazyGroup_ext; intros s'; by apply IH.
Qed.

Lemma lazyGroup_length (k : bool -> jsstring -> option (list jsstring)) (n : nat)
  (acc : jsstring) (b : bool) (s : jsstring) (caps : list jsstring) :
  (forall b' s' caps', k b' s' = Some caps' -> length caps' = n) ->
  lazyGroup k acc b s = Some caps -> length caps = S n.
Proof.
  intros Hk. revert acc b. induction s as [|x s IH]; intros acc b; simpl.
  - destruct (k b []) eqn:E; [|done]. intros [= <-]. simpl. f_equal. by eapply Hk.
  - destruct (k b (x :: s)) eqn:E.
    + intros [= <-]. simpl. f_equal. by eapply Hk.
    + destruct (isLineTerminator x); [done|]. apply IH.
Qed.

(** A match yields one text per capture group. *)
Lemma matchTerms_length (ts : list Term) (b : bool) (s : jsstring) (caps : list jsstring) :
  matchTerms ts b s = Some caps -> length caps = countGroups ts.
Proof.
  revert b s caps. induction ts as [|t ts IH]; intros b s caps; simpl.
  - by intros [= <-].
  - destruct t; simpl.
    + destruct s as [|x s]; [done|]. destruct (c =? x); [apply IH|done].
    + destruct b; [apply IH|done].
    + destruct s; [apply IH|done].
    + apply lazyGroup_length. intros b' s' caps'. apply IH.
Qed.

Lemma matchTerms_literal (t : jsstring) (rest : list Term) (b : bool) (s : jsstring) :
  anchorFree rest = true ->
  matchTerms (map PatternChar t ++ rest) b (t ++ s) = matchTerms rest false s.
Proof.
  intros Hfree. revert b. induction t as [|c t IH]; intros b; simpl.
  - by apply matchTerms_atStart.
  - rewrite N.eqb_refl. apply IH.
Qed.

(** A pattern of literal characters up to the end of the input matches the
    input that spells these characters, and no other. *)
Lemma matchTerms_exact (t : jsstring) (b : bool) (s : jsstring) :
  matchTerms (map PatternChar t ++ [AssertEnd]) b s
  = if decide (s = t) then Some [] else None.
Proof.
  revert b s. induction t as [|c t IH]; intros b [|x s]; simpl; try done.
  destruct (N.eqb_spec c x) as [->|Hne].
  - rewrite IH. repeat case_decide; congruence.
  - case_decide; congruence.
Qed.

(** ** The regex source, by segments *)

Lemma render_cons (seg : Segment) (segs : list Segment) :
  render (seg :: segs) = renderSegment seg ++ render segs.
Proof. reflexivity. Qed.

Lemma render_app (xs ys : list Segment) : render (xs ++ ys) = render xs ++ render ys.
Proof. unfold render. by rewrite map_app, concat_app. Qed.

Lemma leadingDigits_render (segs : list Segment) :
  render segs = fst (leadingDigits segs) ++ render (snd (leadingDigits segs)).
Proof.
  induction segs as [|seg segs IH]; [done|].
  destruct seg as [ds|c|]; try done. simpl.
  destruct (isDigit c) eqn:Hc; [|done]. simpl.
  rewrite render_cons, IH. simpl. by rewrite digit_not_syntax.
Qed.

Lemma leadingDigits_digits (segs : list Segment) :
  forallb isDigit (fst (leadingDigits segs)) = true.
Proof.
  induction segs as [|seg segs IH]; [done|].
  destruct seg as [ds|c|]; try done. simpl.
  destruct (isDigit c) eqn:Hc; [|done]. simpl. by rewrite Hc.
Qed.

Lemma leadingDigits_noLeadingDigit (segs : list Segment) :
  noLeadingDigit (snd (leadingDigits segs)).
Proof.
  induction segs as [|seg segs IH]; [done|].
  destruct seg as [ds|c|]; try done. simpl.
  destruct (isDigit c) eqn:Hc; done.
Qed.

Lemma leadingDigits_wellFormed (segs : list Segment) :
  wellFormed segs -> wellFormed (snd (leadingDigits segs)).
Proof.
  induction segs as [|seg segs IH]; [done|].
  destruct seg as [ds|c|]; try done. simpl.
  destruct (isDigit c) eqn:Hc; [|done]. intros [_ H]. by apply IH.
Qed.

Lemma leadingDigits_pending (segs : list Segment) :
  pending (snd (leadingDigits segs)) = pending segs.
Proof.
  induction segs as [|seg segs IH]; [done|].
  destruct seg as [ds|c|]; try done. simpl.
  destruct (isDigit c) eqn:Hc; done.
Qed.

Lemma leadingDigits_groups (segs : list Segment) :
  groups (snd (leadingDigits segs)) = groups segs.
Proof.
  induction segs as [|seg segs IH]; [done|].
  destruct seg as [ds|c|]; try done. simpl.
  destruct (isDigit c) eqn:Hc; done.
Qed.

(** The escaped template is the rendering of the template's segments. *)
Lemma render_segments (template : jsstring) :
  render (segments template) = escapeTemplate template.
Proof.
  induction template as [|c t IH]; [done|]. simpl.
  destruct (N.eqb_spec c hash) as [->|Hne].
  - rewrite hash_not_syntax, render_cons. simpl. f_equal.
    by rewrite <- leadingDigits_render.
  - rewrite render_cons, IH. simpl. by destruct (isSyntaxCharacter c).
Qed.

Lemma wellFormed_segments (template : jsstring) : wellFormed (segments template).
Proof.
  induction template as [|c t IH]; [done|]. simpl.
  destruct (N.eqb_spec c hash) as [->|Hne]; simpl; [|done].
  split; [apply leadingDigits_digits|].
  split; [apply leadingDigits_noLeadingDigit|by apply leadingDigits_wellFormed].
Qed.

Lemma groups_segments (template : jsstring) : groups (segments template) = O.
Proof.
  induction template as [|c t IH]; [done|]. simpl.
  destruct (c =? hash); simpl; [|done]. by rewrite leadingDigits_groups.
Qed.

Lemma takeDigits_segments (template : jsstring) :
  takeDigits template = fst (leadingDigits (segments template)).
Proof.
  induction template as [|c t IH]; [done|]. simpl.
  destruct (N.eqb_spec c hash) as [->|Hne]; [done|]. simpl.
  destruct (isDigit c); simpl; by rewrite ?IH.
Qed.

(** The matches of the placeholder regex are the placeholders pending in
    the segments of the template. *)
Lemma pending_segments (template : jsstring) :
  pending (segments template) = placeholderMatches template.
Proof.
  induction template as [|c t IH]; [done|]. simpl.
  destruct (N.eqb_spec c hash) as [->|Hne]; [|done].
  rewrite takeDigits_segments.
  destruct (fst (leadingDigits (segments t))); simpl;
    by rewrite leadingDigits_pending, IH.
Qed.

(** ** Global replacement of a placeholder name *)

Lemma startsWith_cons (a : char) (p : jsstring) (b : char) (s : jsstring) :
  startsWith (a :: p) (b :: s) = (a =? b) && startsWith p s.
Proof. reflexivity. Qed.

Lemma replaceAllFrom_skip (pat rep p s : jsstring) :
  replaceAllFrom pat rep (length p) (p ++ s) = replaceAllFrom pat rep O s.
Proof. induction p as [|c p IH]; simpl; [done|apply IH]. Qed.

Lemma replaceAll_match (ds rep s : jsstring) :
  replaceAll (placeholderName ds) rep (placeholderName ds ++ s)
  = rep ++ replaceAll (placeholderName ds) rep s.
Proof.
  unfold replaceAll, placeholderName. simpl.
  rewrite startsWith_app. f_equal. apply replaceAllFrom_skip.
Qed.

Lemma replaceAll_copy (ds rep : jsstring) (c : char) (s : jsstring) :
  startsWith (placeholderName ds) (c :: s) = false ->
  replaceAll (placeholderName ds) rep (c :: s)
  = c :: replaceAll (placeholderName ds) rep s.
Proof. unfold replaceAll. simpl. by intros ->. Qed.

Lemma replaceAll_other (ds rep : jsstring) (c : char) (s : jsstring) :
  c <> hash ->
  replaceAll (placeholderName ds) rep (c :: s)
  = c :: replaceAll (placeholderName ds) rep s.
Proof.
  intros Hc. apply replaceAll_copy. unfold placeholderName.
  rewrite startsWith_cons. destruct (N.eqb_spec hash c); [congruence|done].
Qed.

Lemma replaceAll_others (ds rep l s : jsstring) :
  hash ∉ l ->
  replaceAll (placeholderName ds) rep (l ++ s)
  = l ++ replaceAll (placeholderName ds) rep s.
Proof.
  induction l as [|c l IH]; intros Hl; [done|]. simpl.
  rewrite replaceAll_other, IH; [done|set_solver|set_solver].
Qed.

Lemma digits_no_hash (ds : jsstring) : forallb isDigit ds = true -> hash ∉ ds.
Proof.
  induction ds as [|d ds IH]; simpl; [set_solver|].
  rewrite andb_true_iff. intros [Hd Hds]. apply not_elem_of_cons.
  split; [|by apply IH]. intros <-. by vm_compute in Hd.
Qed.

Lemma startsWith_digits (ds D r : jsstring) :
  forallb isDigit ds = true ->
  (forall x, head r = Some x -> isDigit x = false) ->
  startsWith ds (D ++ r) = startsWith ds D.
Proof.
  intros Hds Hr. revert D. induction ds as [|d ds IH]; intros D; [done|].
  simpl in Hds. apply andb_true_iff in Hds as [Hd Hds].
  destruct D as [|y D].
  - change ([] ++ r) with r. destruct r as [|x r]; [done|]. specialize (Hr x eq_refl).
    rewrite startsWith_cons. destruct (N.eqb_spec d x) as [->|]; [congruence|done].
  - change ((y :: D) ++ r) with (y :: (D ++ r)). by rewrite !startsWith_cons, IH.
Qed.

Lemma head_render (segs : list Segment) (x : char) :
  noLeadingDigit segs -> head (render segs) = Some x -> isDigit x = false.
Proof.
  destruct segs as [|seg segs]; [done|]. destruct seg as [ds|c|]; simpl.
  - by intros _ [= <-].
  - intros Hc. rewrite render_cons. simpl.
    destruct (isSyntaxCharacter c); simpl; by intros [= <-].
  - by intros _ [= <-].
Qed.

Lemma render_literals (l : jsstring) :
  forallb isDigit l = true -> render (map Literal l) = l.
Proof.
  induction l as [|c l IH]; simpl; [done|].
  rewrite andb_true_iff. intros [Hc Hl]. rewrite render_cons, IH by done.
  simpl. by rewrite digit_not_syntax.
Qed.

Lemma forallb_drop {A} (f : A -> bool) (n : nat) (l : list A) :
  forallb f l = true -> forallb f (drop n l) = true.
Proof.
  revert n. induction l as [|x l IH]; intros [|n]; simpl; try done.
  rewrite andb_true_iff. intros [_ H]. by apply IH.
Qed.

Lemma render_singleton (seg : Segment) : render [seg] = renderSegment seg.
Proof. unfold render. simpl. apply app_nil_r. Qed.

Lemma replaceSegments_cons (ds : jsstring) (seg : Segment) (segs : list Segment) :
  replaceSegments ds (seg :: segs) = replaceSegment ds seg ++ replaceSegments ds segs.
Proof. reflexivity. Qed.

(** One pass of the loop rewrites the source as it rewrites the segments. *)
Lemma replaceAll_render (ds : jsstring) (segs : list Segment) :
  forallb isDigit ds = true -> wellFormed segs ->
  replaceAll (placeholderName ds) captureGroup (render segs)
  = render (replaceSegments ds segs).
Proof.
  intros Hds. induction segs as [|seg segs IH]; intros Hwf; [done|].
  rewrite render_cons, replaceSegments_cons, render_app.
  destruct seg as [D|c|]; simpl in Hwf.
  - destruct Hwf as (HD & Hnext & Hwf). cbn [renderSegment replaceSegment].
    destruct (startsWith ds D) eqn:Hpre.
    + apply startsWith_inv in Hpre.
      assert (E : (hash :: D) ++ render segs
                  = placeholderName ds ++ (drop (length ds) D ++ render segs)).
      { rewrite Hpre at 1. unfold placeholderName. simpl. by rewrite <- app_assoc. }
      rewrite E, replaceAll_match, replaceAll_others, IH by
        (done || by apply digits_no_hash, forallb_drop).
      rewrite render_cons, render_literals by (by apply forallb_drop).
      cbn [renderSegment]. by rewrite <- app_assoc.
    + change ((hash :: D) ++ render segs) with (hash :: (D ++ render segs)).
      rewrite replaceAll_copy.
      * rewrite replaceAll_others, IH by (done || by apply digits_no_hash).
        by rewrite render_singleton.
      * unfold placeholderName. rewrite startsWith_cons, N.eqb_refl. simpl.
        rewrite startsWith_digits; [done|done|]. intros x. by apply head_render.
  - destruct Hwf as (Hc & Hwf). rewrite replaceAll_others.
    + rewrite IH by done. cbn [replaceSegment]. by rewrite render_singleton.
    + simpl. destruct (isSyntaxCharacter c).
      * intros [E|[E|E]%elem_of_cons]%elem_of_cons; [by vm_compute in E|done|].
        by apply elem_of_nil in E.
      * intros [E|E]%elem_of_cons; [done|]. by apply elem_of_nil in E.
  - rewrite replaceAll_others.
    + rewrite IH by done. cbn [replaceSegment]. by rewrite render_singleton.
    + simpl. intros E. apply inb_true in E. by vm_compute in E.
Qed.

Lemma wellFormed_literals (l : jsstring) (segs : list Segment) :
  forallb isDigit l = true -> wellFormed segs -> wellFormed (map Literal l ++ segs).
Proof.
  induction l as [|c l IH]; simpl; [done|].
  rewrite andb_true_iff. intros [Hc Hl] Hwf. split; [by apply digit_not_hash|by apply IH].
Qed.

Lemma wellFormed_replaceSegments (ds : jsstring) (segs : list Segment) :
  wellFormed segs ->
  wellFormed (replaceSegments ds segs) ∧
  (noLeadingDigit segs -> noLeadingDigit (replaceSegments ds segs)).
Proof.
  induction segs as [|seg segs IH]; intros Hwf; [done|].
  rewrite replaceSegments_cons. destruct seg as [D|c|]; simpl in Hwf.
  - destruct Hwf as (HD & Hnext & Hwf). destruct (IH Hwf) as [IH1 IH2].
    cbn [replaceSegment]. destruct (startsWith ds D); simpl.
    + split; [|done]. apply wellFormed_literals; [by apply forallb_drop|done].
    + split; [|done]. split; [done|]. split; [by apply IH2|done].
  - destruct Hwf as (Hc & Hwf). destruct (IH Hwf) as [IH1 IH2]. by simpl.
  - destruct (IH Hwf) as [IH1 IH2]. by simpl.
Qed.

(** ** What the substitution loop leaves *)

Lemma pending_literals (l : jsstring) (segs : list Segment) :
  pending (map Literal l ++ segs) = pending segs.
Proof. induction l as [|c l IH]; simpl; done. Qed.

Lemma groups_literals (l : jsstring) (segs : list Segment) :
  groups (map Literal l ++ segs) = groups segs.
Proof. induction l as [|c l IH]; simpl; done. Qed.

Lemma startsWith_nil_r (ds : jsstring) : ds <> [] -> startsWith ds [] = false.
Proof. by destruct ds. Qed.

Lemma pending_replaceSegments (ds : jsstring) (segs : list Segment) :
  ds <> [] ->
  pending (replaceSegments ds segs)
  = List.filter (fun D => negb (startsWith ds D)) (pending segs).
Proof.
  intros Hds. induction segs as [|seg segs IH]; [done|].
  rewrite replaceSegments_cons. destruct seg as [D|c|]; try done.
  cbn [replaceSegment]. destruct D as [|d D].
  - by rewrite startsWith_nil_r.
  - destruct (startsWith ds (d :: D)) eqn:Hpre.
    + simpl. rewrite Hpre. simpl. by rewrite pending_literals.
    + simpl. rewrite Hpre. simpl. by f_equal.
Qed.

Lemma groups_replaceSegments (ds : jsstring) (segs : list Segment) :
  ds <> [] ->
  groups (replaceSegments ds segs)
  = (groups segs + length (List.filter (startsWith ds) (pending segs)))%nat.
Proof.
  intros Hds. induction segs as [|seg segs IH]; [done|].
  rewrite replaceSegments_cons. destruct seg as [D|c|]; try done.
  - cbn [replaceSegment]. destruct D as [|d D].
    + by rewrite startsWith_nil_r.
    + destruct (startsWith ds (d :: D)) eqn:Hpre.
      * simpl. rewrite Hpre. simpl. rewrite groups_literals, IH. lia.
      * simpl. by rewrite Hpre.
  - simpl. by rewrite IH.
Qed.

Lemma filter_partition_length {A} (f : A -> bool) (l : list A) :
  (length (List.filter f l) + length (List.filter (fun x => negb (f x)) l))%nat
  = length l.
Proof. induction l as [|x l IH]; simpl; [done|]. destruct (f x); simpl; lia. Qed.

Lemma pending_shape (segs : list Segment) :
  wellFormed segs ->
  Forall (fun D => D <> [] ∧ forallb isDigit D = true) (pending segs).
Proof.
  induction segs as [|seg segs IH]; intros Hwf; [constructor|].
  destruct seg as [[|d D]|c|]; simpl in *; try (apply IH; tauto).
  constructor; [|apply IH; tauto]. split; [done|tauto].
Qed.

Lemma substituteSegments_cons (m : jsstring) (M : list jsstring) (segs : list Segment) :
  substituteSegments (m :: M) segs = substituteSegments M (replaceSegments m segs).
Proof. reflexivity. Qed.

(** The loop rewrites the source as the segments are rewritten. *)
Lemma substitute_render (M : list jsstring) (segs : list Segment) :
  Forall (fun ds => forallb isDigit ds = true) M -> wellFormed segs ->
  substitutePlaceholders M (render segs) = render (substituteSegments M segs)
  ∧ wellFormed (substituteSegments M segs).
Proof.
  revert segs. induction M as [|m M IH]; intros segs HM Hwf; [done|].
  inversion HM as [|? ? Hm HM']; subst.
  rewrite substituteSegments_cons. unfold substitutePlaceholders. simpl.
  rewrite replaceAll_render by done.
  apply IH; [done|]. by apply wellFormed_replaceSegments.
Qed.

Lemma substitute_count (M : list jsstring) (segs : list Segment) :
  Forall (fun ds => ds <> []) M ->
  (groups (substituteSegments M segs) + length (pending (substituteSegments M segs)))%nat
  = (groups segs + length (pending segs))%nat.
Proof.
  revert segs. induction M as [|m M IH]; intros segs HM; [done|].
  inversion HM as [|? ? Hm HM']; subst.
  rewrite substituteSegments_cons, IH by done.
  rewrite groups_replaceSegments, pending_replaceSegments by done.
  pose proof (filter_partition_length (startsWith m) (pending segs)). lia.
Qed.

Lemma substitute_pending (M : list jsstring) (segs : list Segment) (D : jsstring) :
  Forall (fun ds => ds <> []) M ->
  In D (pending (substituteSegments M segs)) ->
  In D (pending segs) ∧ forall m, In m M -> startsWith m D = false.
Proof.
  revert segs. induction M as [|m M IH]; intros segs HM HD; [by split|].
  inversion HM as [|? ? Hm HM']; subst.
  rewrite substituteSegments_cons in HD. apply IH in HD as [HD Hrest]; [|done].
  rewrite pending_replaceSegments in HD by done.
  apply filter_In in HD as [HD Hpre]. split; [done|].
  intros m' [<-|Hm']; [by destruct (startsWith m D)|by apply Hrest].
Qed.

(** After the loop no placeholder is pending, and every placeholder match
    has become one group. *)
Lemma substitute_all (segs : list Segment) :
  wellFormed segs ->
  pending (substituteSegments (pending segs) segs) = [] ∧
  groups (substituteSegments (pending segs) segs)
  = (groups segs + length (pending segs))%nat.
Proof.
  intros Hwf.
  assert (Hne : Forall (fun ds : jsstring => ds <> []) (pending segs)).
  { eapply Forall_impl; [by apply pending_shape|]. by intros D [H _]. }
  assert (Hnil : pending (substituteSegments (pending segs) segs) = []).
  { destruct (pending (substituteSegments (pending segs) segs)) as [|D l] eqn:E; [done|].
    destruct (substitute_pending (pending segs) segs D Hne) as [HD Hpre].
    { rewrite E. by left. }
    specialize (Hpre D HD). by rewrite startsWith_refl in Hpre. }
  split; [done|].
  pose proof (substitute_count (pending segs) segs Hne) as Hc.
  rewrite Hnil in Hc. simpl in Hc. lia.
Qed.

(** ** Parsing the regex source *)

Lemma parse_plain (c : char) (s : jsstring) :
  isSyntaxCharacter c = false -> parse (c :: s) = cons (PatternChar c) <$> parse s.
Proof.
  intros Hc. cbn [parse].
  destruct (N.eqb_spec c backslash) as [->|_]; [by vm_compute in Hc|].
  destruct (N.eqb_spec c (ch "^")) as [->|_]; [by vm_compute in Hc|].
  destruct (N.eqb_spec c (ch "$")) as [->|_]; [by vm_compute in Hc|].
  destruct (N.eqb_spec c (ch "(")) as [->|_]; [by vm_compute in Hc|].
  by rewrite Hc.
Qed.

Lemma parse_escaped (e : char) (s : jsstring) :
  isSyntaxCharacter e = true ->
  parse (backslash :: e :: s) = cons (PatternChar e) <$> parse s.
Proof. intros He. cbn [parse]. rewrite N.eqb_refl. by rewrite He. Qed.

Lemma parse_group (s : jsstring) :
  parse (captureGroup ++ s) = cons LazyGroup <$> parse s.
Proof. reflexivity. Qed.

Lemma parse_plains (l : jsstring) (s : jsstring) :
  forallb (fun c => negb (isSyntaxCharacter c)) l = true ->
  parse (l ++ s) = app (map PatternChar l) <$> parse s.
Proof.
  induction l as [|c l IH]; intros H.
  - change ([] ++ s) with s. by destruct (parse s).
  - change ((c :: l) ++ s) with (c :: (l ++ s)). cbn [forallb] in H.
    apply andb_true_iff in H as [Hc Hl]. apply negb_true_iff in Hc.
    rewrite parse_plain, IH by done. by destruct (parse s).
Qed.

Lemma wellFormed_digitsOnly (segs : list Segment) : wellFormed segs -> digitsOnly segs.
Proof.
  induction segs as [|seg segs IH]; intros Hwf; [constructor|].
  destruct seg; simpl in Hwf; constructor; try done; try tauto; apply IH; tauto.
Qed.

Ltac finish_parse s :=
  destruct (parse s) as [?l|]; [|reflexivity]; cbn [fmap option_fmap option_map];
  f_equal; cbn [app]; rewrite <- ?app_assoc; reflexivity.

Lemma parse_render (segs : list Segment) (s : jsstring) :
  digitsOnly segs -> parse (render segs ++ s) = app (terms segs) <$> parse s.
Proof.
  induction 1 as [|seg segs Hseg Hsegs IH].
  { change (render [] ++ s) with s. by destruct (parse s). }
  rewrite render_cons, <- app_assoc.
  change (terms (seg :: segs)) with (termsOf seg ++ terms segs).
  destruct seg as [ds|c|]; cbn [renderSegment termsOf].
  - change ((hash :: ds) ++ render segs ++ s) with (hash :: (ds ++ render segs ++ s)).
    rewrite parse_plain by done.
    rewrite parse_plains, IH by (by apply digits_not_syntax).
    finish_parse s.
  - destruct (isSyntaxCharacter c) eqn:Hc.
    + change ([backslash; c] ++ render segs ++ s)
        with (backslash :: c :: (render segs ++ s)).
      rewrite parse_escaped, IH by done. finish_parse s.
    + change ([c] ++ render segs ++ s) with (c :: (render segs ++ s)).
      rewrite parse_plain, IH by done. finish_parse s.
  - rewrite parse_group, IH. finish_parse s.
Qed.

Lemma countGroups_app (xs ys : list Term) :
  countGroups (xs ++ ys) = (countGroups xs + countGroups ys)%nat.
Proof. induction xs as [|[] xs IH]; simpl; lia. Qed.

Lemma countGroups_literals (l : jsstring) : countGroups (map PatternChar l) = O.
Proof. induction l; done. Qed.

Lemma countGroups_terms (segs : list Segment) : countGroups (terms segs) = groups segs.
Proof.
  induction segs as [|seg segs IH]; [done|].
  change (terms (seg :: segs)) with (termsOf seg ++ terms segs).
  rewrite countGroups_app, IH. destruct seg; simpl; [|done..].
  by rewrite countGroups_literals.
Qed.

Lemma anchorFree_app (xs ys : list Term) :
  anchorFree (xs ++ ys) = anchorFree xs && anchorFree ys.
Proof. apply forallb_app. Qed.

Lemma anchorFree_literals (l : jsstring) : anchorFree (map PatternChar l) = true.
Proof. induction l; done. Qed.

Lemma anchorFree_terms (segs : list Segment) : anchorFree (terms segs) = true.
Proof.
  induction segs as [|seg segs IH]; [done|].
  change (terms (seg :: segs)) with (termsOf seg ++ terms segs).
  rewrite anchorFree_app, IH. destruct seg; simpl; [|done..].
  by rewrite anchorFree_literals.
Qed.

Lemma placeholderMatches_shape (template : jsstring) :
  Forall (fun D => D <> [] ∧ forallb isDigit D = true) (placeholderMatches template).
Proof. rewrite <- pending_segments. apply pending_shape, wellFormed_segments. Qed.

(** The source built for a template always parses, to [regexOf]. *)
Lemma parse_regexSource (template : jsstring) :
  parse (regexSource template) = Some (regexOf template).
Proof.
  unfold regexSource, regexOf. rewrite <- render_segments.
  destruct (substitute_render (placeholderMatches template) (segments template))
    as [-> Hwf]; [|apply wellFormed_segments|].
  { eapply Forall_impl; [apply placeholderMatches_shape|]. by intros D [_ H]. }
  change (str "^" ++ ?s) with (ch "^" :: s). cbn [parse].
  change (ch "^" =? backslash) with false. rewrite N.eqb_refl. cbn match.
  rewrite parse_render by by apply wellFormed_digitsOnly. done.
Qed.

(** Every match of the placeholder regex has its own capture group. *)
Lemma countGroups_regexOf (template : jsstring) :
  countGroups (regexOf template) = length (placeholderMatches template).
Proof.
  unfold regexOf. cbn [countGroups]. rewrite countGroups_app, countGroups_terms.
  rewrite <- pending_segments.
  destruct (substitute_all (segments template)) as [_ ->]; [apply wellFormed_segments|].
  rewrite groups_segments. simpl. lia.
Qed.

(** ** The matcher, unfolded *)

Lemma leadingDigits_terms (segs : list Segment) :
  terms segs
  = map PatternChar (fst (leadingDigits segs)) ++ terms (snd (leadingDigits segs)).
Proof.
  induction segs as [|seg segs IH]; [done|].
  destruct seg as [ds|c|]; try done. simpl.
  destruct (isDigit c) eqn:Hc; [|done]. simpl.
  change (terms (Literal c :: segs)) with (PatternChar c :: terms segs).
  by rewrite IH.
Qed.

(** Before the loop runs, the segments spell the template. *)
Lemma terms_segments (template : jsstring) :
  terms (segments template) = map PatternChar template.
Proof.
  induction template as [|c t IH]; [done|]. simpl.
  destruct (N.eqb_spec c hash) as [->|Hne].
  - change (terms (Placeholder ?ds :: ?r))
      with (PatternChar hash :: (map PatternChar ds ++ terms r)).
    by rewrite <- leadingDigits_terms, IH.
  - change (terms (Literal c :: ?r)) with (PatternChar c :: terms r). by rewrite IH.
Qed.

Lemma extract_unfold (template inputString : jsstring) :
  template <> [] -> inputString <> [] ->
  extractArgumentsWithOrder template inputString
  = match matchTerms (regexBody template) true inputString with
    | Some matchResult => Return (Some (resultOf template matchResult))
    | None => Return None
    end.
Proof.
  intros Ht Hs. unfold extractArgumentsWithOrder.
  destruct template as [|c t]; [done|]. destruct inputString as [|x s]; [done|].
  rewrite parse_regexSource. unfold regexOf. rewrite exec_anchored. done.
Qed.

Lemma extract_returns (template inputString : jsstring) :
  template <> [] ->
  exists r, extractArgumentsWithOrder template inputString = Return r.
Proof.
  intros Ht. destruct inputString as [|x s].
  - exists None. by destruct template.
  - rewrite extract_unfold by done.
    destruct (matchTerms _ _ _); eauto.
Qed.

Lemma regexBody_no_placeholder (template : jsstring) :
  placeholderMatches template = [] ->
  regexBody template = map PatternChar template ++ [AssertEnd].
Proof. intros H. unfold regexBody. rewrite H. simpl. by rewrite terms_segments. Qed.

(** A template without placeholders matches the input equal to it, with
    no argument, and nothing else. *)
Lemma extract_no_placeholder (template inputString : jsstring) :
  template <> [] -> placeholderMatches template = [] ->
  extractArgumentsWithOrder template inputString
  = Return (if decide (inputString = template) then Some [] else None).
Proof.
  intros Ht Hno. destruct inputString as [|x s].
  - destruct template; [done|]. by rewrite decide_False.
  - rewrite extract_unfold, regexBody_no_placeholder, matchTerms_exact by done.
    case_decide; [|done]. unfold resultOf. rewrite Hno. reflexivity.
Qed.

(** ** Reconciliation of one node *)

Section ReloadArgs.

Context {Body : Type} (bodyToLatex : Body -> ToLatexOptions -> jsstring).

Lemma reloadArgs_throw (this : MacroAtom Body) (e : Exception) :
  reloadArgs bodyToLatex this = Throw e <-> def this = [] ∧ e = noTemplate.
Proof.
  unfold reloadArgs. destruct (def this) as [|c t] eqn:Hdef.
  - simpl. split; [by intros [= <-]|by intros [_ ->]].
  - destruct (extract_returns (c :: t) (bodyToLatex (body this) reloadArgsOptions))
      as [r ->]; [done|]. split; [done|by intros [? _]].
Qed.

Lemma reloadArgs_no_match (this : MacroAtom Body) :
  extractArgumentsWithOrder (def this) (bodyToLatex (body this) reloadArgsOptions)
  = Return None ->
  reloadArgs bodyToLatex this = Return (set_macroArgs Null this).
Proof. unfold reloadArgs. by intros ->. Qed.

Lemma reloadArgs_match (this : MacroAtom Body) (args : list (option jsstring)) :
  extractArgumentsWithOrder (def this) (bodyToLatex (body this) reloadArgsOptions)
  = Return (Some args) ->
  reloadArgs bodyToLatex this
  = Return (set_macroArgs (Val (concat (map encodeArgument args))) this).
Proof. unfold reloadArgs. by intros ->. Qed.

End ReloadArgs.

(** ** Snapshots *)

(** The snapshot, field by field. *)
Lemma toJson_fields {Body : Type} (this : MacroAtom Body) :
  toJson this
  = {| json_type := type this;
       json_command := Some (command this);
       json_style := style this;
       json_body := body this;
       json_expand := if expand this then Some true else None;
       json_captureSelection := captureSelection this;
       json_args := if truthy (macroArgs this) then macroArgs this else Undefined;
       json_def := Some (def this) |}.
Proof.
  unfold toJson.
  destruct (expand this), (captureSelection this), (truthy (macroArgs this));
    reflexivity.
Qed.

(** * The claims of the specification *)

(** ** Error handling of the matcher *)

(** C3.  The matcher throws exactly when the template is empty, and then
    with the error [No template provided]; this is also the only way
    [reloadArgs()] throws.  With a non-empty template an empty body is
    answered by the no-match value [null].  No other exception arises: the
    regex source built for a template always parses. *)
Theorem invalid_template_iff_empty :
  (forall template inputString e,
     extractArgumentsWithOrder template inputString = Throw e
     <-> template = [] ∧ e = noTemplate)
  ∧ (forall template,
       template <> [] -> extractArgumentsWithOrder template [] = Return None)
  ∧ (forall (Body : Type) (bodyToLatex : Body -> ToLatexOptions -> jsstring)
       (this : MacroAtom Body) e,
       reloadArgs bodyToLatex this = Throw e <-> def this = [] ∧ e = noTemplate)
  ∧ (forall template, parse (regexSource template) = Some (regexOf template)).
Proof.
  split; [|split; [|split; [|apply parse_regexSource]]].
  - intros template inputString e. destruct template as [|c t].
    + simpl. split; [by intros [= <-]|by intros [_ ->]].
    + destruct (extract_returns (c :: t) inputString) as [r ->]; [done|].
      split; [done|by intros [? _]].
  - intros template Ht. by destruct template.
  - intros Body bodyToLatex this e. apply reloadArgs_throw.
Qed.

(** ** Templates without placeholders *)

(** C4.  A non-empty template without placeholders matches the body equal
    to it, with an empty argument sequence; any other body is a no-match,
    after which [reloadArgs()] leaves [null] as the argument encoding. *)
Theorem no_placeholder_template_exact
  (Body : Type) (bodyToLatex : Body -> ToLatexOptions -> jsstring)
  (this : MacroAtom Body) (template inputString : jsstring) :
  template <> [] ->
  placeholderMatches template = [] ->
  (inputString = template ->
   extractArgumentsWithOrder template inputString = Return (Some []))
  ∧ (inputString <> template ->
     extractArgumentsWithOrder template inputString = Return None)
  ∧ (forall args, extractArgumentsWithOrder template inputString = Return (Some args) ->
       inputString = template ∧ args = [])
  ∧ (def this = template ->
     bodyToLatex (body this) reloadArgsOptions <> template ->
     reloadArgs bodyToLatex this = Return (set_macroArgs Null this)
     ∧ macroArgs (set_macroArgs Null this) = Null).
Proof.
  intros Ht Hno. repeat split.
  - intros ->. by rewrite extract_no_placeholder, decide_True.
  - intros Hne. by rewrite extract_no_placeholder, decide_False.
  - rewrite extract_no_placeholder in H by done. by case_decide.
  - rewrite extract_no_placeholder in H by done. case_decide; congruence.
  - apply reloadArgs_no_match. rewrite H, extract_no_placeholder by done.
    by rewrite decide_False.
Qed.

Lemma no_placeholder_template_exact_witness :
  extractArgumentsWithOrder (str "constant") (str "constant") = Return (Some [])
  ∧ reloadArgs latexOf (exampleMacro "\k" Null "constant" "constant + 1")
    = Return (set_macroArgs Null (exampleMacro "\k" Null "constant" "constant + 1")).
Proof.
  split.
  - apply (no_placeholder_template_exact LatexBody latexOf
             (exampleMacro "\k" Null "constant" "constant")
             (str "constant") (str "constant")); [discriminate|reflexivity|reflexivity].
  - apply (no_placeholder_template_exact LatexBody latexOf
             (exampleMacro "\k" Null "constant" "constant + 1")
             (str "constant") (str "constant + 1"));
      [discriminate|reflexivity|reflexivity|discriminate].
Defined.

(** C9.  When the matcher succeeds with no argument, [reloadArgs()] sets
    the argument encoding to the empty string, not to [null]; this is what
    happens for a template without placeholders whose body serializes to
    the template.  The snapshot of the node then has no [args] field, as
    for [null]. *)
Theorem reloadArgs_empty_arguments
  (Body : Type) (bodyToLatex : Body -> ToLatexOptions -> jsstring)
  (this : MacroAtom Body) :
  (extractArgumentsWithOrder (def this) (bodyToLatex (body this) reloadArgsOptions)
   = Return (Some [])
   \/ (def this <> [] ∧ placeholderMatches (def this) = []
       ∧ bodyToLatex (body this) reloadArgsOptions = def this)) ->
  reloadArgs bodyToLatex this = Return (set_macroArgs (Val []) this)
  ∧ macroArgs (set_macroArgs (Val []) this) = Val []
  ∧ macroArgs (set_macroArgs (Val []) this) <> Null
  ∧ json_args (toJson (set_macroArgs (Val []) this)) = Undefined
  ∧ toJson (set_macroArgs (Val []) this) = toJson (set_macroArgs Null this).
Proof.
  intros H. split; [|by rewrite !toJson_fields].
  assert (E : extractArgumentsWithOrder (def this)
                (bodyToLatex (body this) reloadArgsOptions) = Return (Some [])).
  { destruct H as [H|(Hne & Hno & Hbody)]; [done|].
    by rewrite Hbody, extract_no_placeholder, decide_True. }
  by rewrite (reloadArgs_match _ _ _ E).
Qed.

Lemma reloadArgs_empty_arguments_witness :
  reloadArgs latexOf (exampleMacro "\k" Null "constant" "constant")
  = Return (set_macroArgs (Val []) (exampleMacro "\k" Null "constant" "constant")).
Proof.
  apply (reloadArgs_empty_arguments LatexBody latexOf
           (exampleMacro "\k" Null "constant" "constant")).
  right. split; [discriminate|split; reflexivity].
Defined.

(** ** Serialization *)

(** C6.  [_serialize] gives the serialization of the body when the caller
    asks for expansion and the node allows it, and otherwise the command
    followed by the argument encoding, or the command alone when there is
    no encoding. *)
Theorem serialize_body_or_invocation
  (Body : Type) (bodyToLatex : Body -> ToLatexOptions -> jsstring)
  (this : MacroAtom Body) (options : ToLatexOptions) :
  (expandMacro options = Some true ∧ expand this = true ->
   _serialize bodyToLatex this options = bodyToLatex (body this) options)
  ∧ (~ (expandMacro options = Some true ∧ expand this = true) ->
     (forall args, macroArgs this = Val args ->
        _serialize bodyToLatex this options = command this ++ args)
     ∧ (macroArgs this = Null ->
        _serialize bodyToLatex this options = command this)).
Proof.
  unfold _serialize. split.
  - by intros [-> ->].
  - intros Hno.
    assert (default false (expandMacro options) && expand this = false) as ->.
    { destruct (expandMacro options) as [[]|], (expand this); simpl; try done.
      by destruct Hno. }
    split; [by intros args ->|]. intros ->. simpl. apply app_nil_r.
Qed.

(** ** Styling *)

Lemma copyIfTruthy_lookup (key : string) (source target : Style) (k : string) :
  copyIfTruthy key source target !! k
  = if decide (k = key)
    then match source !! key with
         | Some v => if styleTruthy v then Some v else target !! k
         | None => target !! k
         end
    else target !! k.
Proof.
  unfold copyIfTruthy. case_decide as Hk.
  - subst k. destruct (source !! key) as [v|]; [|done].
    destruct (styleTruthy v); [|done]. by rewrite lookup_insert_eq.
  - destruct (source !! key) as [v|]; [|done].
    destruct (styleTruthy v); [|done]. by rewrite lookup_insert_ne.
Qed.

Lemma copyIfTruthy_Some (key : string) (source target : Style) (k : string)
  (v : StyleValue) :
  copyIfTruthy key source target !! k = Some v ->
  (k = key ∧ source !! key = Some v ∧ styleTruthy v = true) \/ target !! k = Some v.
Proof.
  unfold copyIfTruthy. destruct (source !! key) as [w|] eqn:Hw; [|by right].
  destruct (styleTruthy w) eqn:Ht; [|by right].
  destruct (decide (key = k)) as [->|Hne].
  - rewrite lookup_insert_eq. intros [= <-]. by left.
  - rewrite lookup_insert_ne by done. by right.
Qed.

Lemma copyIfTruthy_same (key : string) (source target : Style) (v : StyleValue) :
  source !! key = Some v -> styleTruthy v = true ->
  copyIfTruthy key source target !! key = Some v.
Proof. intros Hv Ht. rewrite copyIfTruthy_lookup, decide_True by done. by rewrite Hv, Ht. Qed.

Lemma copyIfTruthy_other (key : string) (source target : Style) (k : string) :
  k <> key -> copyIfTruthy key source target !! k = target !! k.
Proof. intros Hk. by rewrite copyIfTruthy_lookup, decide_False. Qed.

(** C8.  [applyStyle] hands to the generic routine a style that holds the
    colour and the background colour of the given style, when they are set,
    and no other attribute. *)
Theorem applyStyle_forwards_colors_only
  (Body : Type) (Atom_applyStyle : MacroAtom Body -> Style -> option bool -> MacroAtom Body)
  (this : MacroAtom Body) (style : Style) (options : option bool) :
  applyStyle Atom_applyStyle this style options
  = Atom_applyStyle this (allowedStyle style) options
  ∧ (forall key, key <> "color"%string -> key <> "backgroundColor"%string ->
       allowedStyle style !! key = None)
  ∧ (forall key v, allowedStyle style !! key = Some v ->
       style !! key = Some v ∧ styleTruthy v = true)
  ∧ (forall key v, key = "color"%string \/ key = "backgroundColor"%string ->
       style !! key = Some v -> styleTruthy v = true ->
       allowedStyle style !! key = Some v)
  ∧ allowedStyle redBold = {["color"%string := StyleString (str "red")]}
  ∧ allowedStyle redBold !! "fontWeight"%string = None.
Proof.
  split; [reflexivity|]. unfold allowedStyle.
  split; [|split; [|split; [|split]]].
  - intros key H1 H2. rewrite !copyIfTruthy_lookup.
    rewrite !decide_False by done. apply lookup_empty.
  - intros key v H.
    apply copyIfTruthy_Some in H as [(-> & Hv & Ht)|H]; [done|].
    apply copyIfTruthy_Some in H as [(-> & Hv & Ht)|H]; [done|].
    by rewrite lookup_empty in H.
  - intros key v [->| ->] Hv Ht.
    + rewrite copyIfTruthy_other by done. by apply copyIfTruthy_same.
    + by apply copyIfTruthy_same.
  - apply map_eq. intros k.
    destruct (decide (k = "color"%string)) as [->|Hk]; [done|].
    rewrite lookup_singleton_ne by done.
    destruct (decide (k = "backgroundColor"%string)) as [->|Hk']; [done|].
    rewrite !copyIfTruthy_other by done. apply lookup_empty.
  - reflexivity.
Qed.

(** ** Snapshots of constructed nodes *)

Lemma new_MacroAtom_captureSelection {Body : Type} (macro : jsstring)
  (options : MacroOptions Body) :
  captureSelection (new_MacroAtom macro options)
  = Some (match opt_captureSelection options with
          | Some b => b
          | None => negb (truthy (opt_args options))
          end).
Proof.
  unfold new_MacroAtom. simpl.
  destruct (opt_captureSelection options); [done|].
  by destruct (truthy (opt_args options)).
Qed.

(** C5, as the specification states it, fails: a node constructed without a
    [captureSelection] option still has [captureSelection] in its snapshot,
    since the constructor always sets the field. *)
Lemma captureSelection_written_when_defaulted :
  exampleMacro "\k" Null "constant" "constant"
  = new_MacroAtom (str "\k")
      {| opt_expand := None; opt_args := Null; opt_body := str "constant";
         opt_captureSelection := None; opt_style := ∅; opt_def := str "constant" |}
  ∧ json_captureSelection (toJson (exampleMacro "\k" Null "constant" "constant"))
    = Some true.
Proof. split; reflexivity. Qed.

(** C5, amended.  The snapshot of a constructed node has [expand] only when
    the flag is true, [args] only when the argument encoding is a non-empty
    string, and [captureSelection] always, with the value given at
    construction or else the default derived from the arguments; absent
    fields are left out, not written as null.  [fromJson] rebuilds from the
    snapshot an equivalent node, whose argument encoding is the persisted
    one, and whose snapshot is the same. *)
Theorem snapshot_fields_and_round_trip
  (Body : Type) (macro : jsstring) (options : MacroOptions Body)
  (this : MacroAtom Body) :
  this = new_MacroAtom macro options ->
  json_expand (toJson this) = (if expand this then Some true else None)
  ∧ json_args (toJson this)
    = match macroArgs this with
      | Val (c :: s) => Val (c :: s)
      | _ => Undefined
      end
  ∧ json_captureSelection (toJson this)
    = Some (match opt_captureSelection options with
            | Some b => b
            | None => negb (truthy (opt_args options))
            end)
  ∧ json_command (toJson this) = Some macro
  ∧ json_def (toJson this) = Some (opt_def options)
  ∧ exists this',
      fromJson (toJson this) = Some this'
      ∧ equivalentNodes this this'
      ∧ macroArgs this' = json_args (toJson this)
      ∧ toJson this' = toJson this.
Proof.
  intros ->. rewrite !toJson_fields. cbn [json_expand json_args json_captureSelection
    json_command json_def].
  split; [done|]. split; [simpl; by destruct (opt_args options) as [| |[|]]|].
  split; [apply new_MacroAtom_captureSelection|]. split; [done|]. split; [done|].
  eexists. split; [reflexivity|].
  unfold equivalentNodes. rewrite !toJson_fields.
  destruct options as [oe oa ob oc os od].
  destruct oe as [[]|], oa as [| |[|]], oc as [[]|]; cbn; repeat split.
Qed.

Lemma snapshot_fields_and_round_trip_witness :
  json_expand (toJson (exampleMacro "\foo" (Val (str "{a}{b}")) "\frac{#1}{#2}" "\frac{a}{b}"))
  = None
  ∧ json_args (toJson (exampleMacro "\foo" (Val (str "{a}{b}")) "\frac{#1}{#2}" "\frac{a}{b}"))
    = Val (str "{a}{b}")
  ∧ json_captureSelection
      (toJson (exampleMacro "\foo" (Val (str "{a}{b}")) "\frac{#1}{#2}" "\frac{a}{b}"))
    = Some false.
Proof.
  destruct (snapshot_fields_and_round_trip LatexBody (str "\foo")
              {| opt_expand := None; opt_args := Val (str "{a}{b}");
                 opt_body := str "\frac{a}{b}"; opt_captureSelection := None;
                 opt_style := ∅; opt_def := str "\frac{#1}{#2}" |}
              (exampleMacro "\foo" (Val (str "{a}{b}")) "\frac{#1}{#2}" "\frac{a}{b}")
              eq_refl)
    as (H1 & H2 & H3 & _).
  split; [exact H1|]. split; [exact H2|exact H3].
Defined.

(** ** The table from placeholder names to captures *)

Lemma lastIndexOf_spec (key : jsstring) (l : list jsstring) (j : nat) :
  l !! j = Some key -> (forall j', (j < j')%nat -> l !! j' <> Some key) ->
  lastIndexOf key l = Some j.
Proof.
  revert j. induction l as [|x l IH]; intros j Hj Hlast; [done|]. simpl.
  destruct j as [|j]; simpl in Hj.
  - injection Hj as ->.
    destruct (lastIndexOf key l) as [k|] eqn:Hk; [|by rewrite decide_True].
    assert (l !! k = Some key) as Hin.
    { clear -Hk. revert k Hk. induction l as [|y l IH]; intros k; [done|]. simpl.
      destruct (lastIndexOf key l) as [k'|]; [intros [= <-]; by apply IH|].
      case_decide; [|done]. by intros [= <-]; subst. }
    destruct (Hlast (S k)); [lia|done].
  - rewrite (IH j Hj); [done|]. intros j' Hlt. apply (Hlast (S j')). lia.
Qed.

Lemma lastIndexOf_Some (key : jsstring) (l : list jsstring) (j : nat) :
  lastIndexOf key l = Some j -> l !! j = Some key.
Proof.
  revert j. induction l as [|y l IH]; intros k; [done|]. simpl.
  destruct (lastIndexOf key l) as [k'|]; [intros [= <-]; by apply IH|].
  case_decide; [|done]. by intros [= <-]; subst.
Qed.

Lemma lastIndexOf_None (key : jsstring) (l : list jsstring) :
  lastIndexOf key l = None <-> ~ In key l.
Proof.
  induction l as [|y l IH]; simpl; [tauto|].
  destruct (lastIndexOf key l) as [k|] eqn:Hk.
  - split; [done|]. intros Hno. apply lastIndexOf_Some in Hk.
    destruct Hno. right. apply list_elem_of_In, list_elem_of_lookup. eauto.
  - case_decide; [split; [done|tauto]|]. split; [|done]. intros _ [?|?]; [done|tauto].
Qed.

(** The table holds, for a name, the capture of its last occurrence. *)
Lemma fillOutput_lookup (placeholders : list jsstring) (index : nat)
  (matchResult : list jsstring) (output : gmap jsstring (option jsstring))
  (key : jsstring) :
  fillOutput placeholders index matchResult output !! key
  = match lastIndexOf key placeholders with
    | Some j => Some (matchResult !! (index + j)%nat)
    | None => output !! key
    end.
Proof.
  revert index output. induction placeholders as [|p rest IH]; intros index output; [done|].
  simpl. rewrite IH. destruct (lastIndexOf key rest) as [j|].
  - do 2 f_equal. lia.
  - case_decide as Hp.
    + subst p. rewrite lookup_insert_eq. do 2 f_equal. lia.
    + by rewrite lookup_insert_ne.
Qed.

Lemma readSlot_fillOutput (placeholders : list jsstring) (matchResult : list jsstring)
  (key : jsstring) :
  readSlot (fillOutput placeholders 0 matchResult ∅) key
  = match lastIndexOf key placeholders with
    | Some j => trim <$> matchResult !! j
    | None => None
    end.
Proof.
  unfold readSlot. rewrite fillOutput_lookup.
  destruct (lastIndexOf key placeholders); [done|]. by rewrite lookup_empty.
Qed.

Lemma popUndefined_lookup_Some (l : list (option jsstring)) (i : nat) (v : jsstring) :
  l !! i = Some (Some v) -> popUndefined l !! i = Some (Some v).
Proof.
  revert i. induction l as [|x l IH]; intros i; [done|]. simpl.
  destruct i as [|i]; simpl.
  - intros [= ->]. by destruct (popUndefined l).
  - intros H. specialize (IH i H). destruct (popUndefined l); [done|]. by destruct x.
Qed.

Lemma popUndefined_lookup (l : list (option jsstring)) (i : nat) (v : option jsstring) :
  popUndefined l !! i = Some v -> l !! i = Some v.
Proof.
  revert i. induction l as [|x l IH]; intros i; [done|]. simpl.
  destruct (popUndefined l) as [|y r] eqn:E.
  - destruct x; [|done]. destruct i; [done|]. by destruct i.
  - destruct i as [|i]; [by destruct x|]. destruct x; simpl; apply IH.
Qed.

Lemma resultOf_lookup (template : jsstring) (matchResult : list jsstring) (i : nat)
  (a : jsstring) :
  resultOf template matchResult !! i = Some (Some a) ->
  exists j raw,
    lastIndexOf (slotName i) (map placeholderName (placeholderMatches template)) = Some j
    ∧ matchResult !! j = Some raw ∧ a = trim raw.
Proof.
  unfold resultOf. intros H. apply popUndefined_lookup in H.
  rewrite list_lookup_fmap in H.
  destruct (seq 0 8 !! i) as [i'|] eqn:Hi; [|done].
  apply lookup_seq in Hi as [-> _]. simpl in H.
  rewrite readSlot_fillOutput in H.
  destruct (lastIndexOf _ _) as [j|]; [|done].
  destruct (matchResult !! j) as [raw|] eqn:Hraw; [|done].
  exists j, raw. by injection H as <-.
Qed.

Lemma resultOf_last_occurrence (template : jsstring) (matchResult : list jsstring)
  (i j : nat) (raw : jsstring) :
  (i < 8)%nat ->
  lastIndexOf (slotName i) (map placeholderName (placeholderMatches template)) = Some j ->
  matchResult !! j = Some raw ->
  resultOf template matchResult !! i = Some (Some (trim raw)).
Proof.
  intros Hi Hj Hraw. unfold resultOf. apply popUndefined_lookup_Some.
  rewrite list_lookup_fmap, lookup_seq_lt by done. simpl.
  by rewrite readSlot_fillOutput, Hj, Hraw.
Qed.

(** ** Captures and arguments *)

Lemma exec_regexOf (template inputString : jsstring) :
  exec (regexOf template) inputString = matchTerms (regexBody template) true inputString.
Proof. apply exec_anchored. Qed.

Lemma exec_length (template inputString : jsstring) (matchResult : list jsstring) :
  exec (regexOf template) inputString = Some matchResult ->
  length matchResult = length (placeholderMatches template).
Proof.
  rewrite exec_regexOf. intros H. apply matchTerms_length in H.
  by rewrite H, <- countGroups_regexOf.
Qed.

(** C10.  Every match of the placeholder regex in the template has its own
    capture group; the table from names to captures is filled in order of
    occurrence, so that for a name [#n] that occurs more than once the
    argument returned is the text, trimmed, that the group of its last
    occurrence captured. *)
Theorem repeated_placeholder_last_capture
  (template inputString : jsstring) (regex : list Term) (matchResult : list jsstring)
  (n j : nat) :
  template <> [] -> inputString <> [] ->
  parse (regexSource template) = Some regex ->
  exec regex inputString = Some matchResult ->
  (1 <= n <= 8)%nat ->
  map placeholderName (placeholderMatches template) !! j = Some (slotName (n - 1)) ->
  (forall j', (j < j')%nat ->
     map placeholderName (placeholderMatches template) !! j' <> Some (slotName (n - 1))) ->
  countGroups regex = length (placeholderMatches template)
  ∧ length matchResult = length (placeholderMatches template)
  ∧ (exists raw result,
       matchResult !! j = Some raw
       ∧ extractArgumentsWithOrder template inputString = Return (Some result)
       ∧ result !! (n - 1)%nat = Some (Some (trim raw)))
  ∧ exec (regexOf (str "#1-#1")) (str "a-b") = Some [str "a"; str "b"]
  ∧ extractArgumentsWithOrder (str "#1-#1") (str "a-b") = Return (Some [Some (str "b")]).
Proof.
  intros Ht Hs Hparse Hexec Hn Hj Hlast.
  rewrite parse_regexSource in Hparse. injection Hparse as <-.
  split; [apply countGroups_regexOf|].
  pose proof (exec_length _ _ _ Hexec) as Hlen. split; [done|].
  split; [|split; reflexivity].
  destruct (matchResult !! j) as [raw|] eqn:Hraw.
  - exists raw, (resultOf template matchResult). split; [done|].
    rewrite extract_unfold, <- exec_regexOf, Hexec by done. split; [done|].
    apply resultOf_last_occurrence with j; [lia| |done].
    by apply lastIndexOf_spec.
  - apply lookup_ge_None in Hraw. apply lookup_lt_Some in Hj.
    rewrite length_map in Hj. lia.
Qed.

Lemma repeated_placeholder_last_capture_witness :
  countGroups (regexOf (str "#1-#1")) = length (placeholderMatches (str "#1-#1"))
  ∧ length [str "a"; str "b"] = length (placeholderMatches (str "#1-#1"))
  ∧ (exists raw result,
       [str "a"; str "b"] !! 1%nat = Some raw
       ∧ extractArgumentsWithOrder (str "#1-#1") (str "a-b") = Return (Some result)
       ∧ result !! (1 - 1)%nat = Some (Some (trim raw)))
  ∧ exec (regexOf (str "#1-#1")) (str "a-b") = Some [str "a"; str "b"]
  ∧ extractArgumentsWithOrder (str "#1-#1") (str "a-b") = Return (Some [Some (str "b")]).
Proof.
  apply (repeated_placeholder_last_capture (str "#1-#1") (str "a-b")
           (regexOf (str "#1-#1")) [str "a"; str "b"] 1 1).
  - discriminate.
  - discriminate.
  - reflexivity.
  - reflexivity.
  - lia.
  - reflexivity.
  - intros [|[|j']] Hlt; [lia|lia|discriminate].
Defined.

(** C7.  Every argument that the matcher returns is a captured text
    trimmed of the white space at its two ends, and [reloadArgs()] encodes
    the arguments as they are returned, each between braces: the argument
    encoding read from the node after the call is this string.  For the
    template [\foo{#1}{#2}] and the captures [ a ] and [b] the encoding
    read after the call is [{a}{b}], where it was [{ a }{b}] before. *)
Theorem captured_arguments_trimmed
  (Body : Type) (bodyToLatex : Body -> ToLatexOptions -> jsstring)
  (this : MacroAtom Body) (args : list (option jsstring)) :
  extractArgumentsWithOrder (def this) (bodyToLatex (body this) reloadArgsOptions)
  = Return (Some args) ->
  reloadArgs bodyToLatex this
  = Return (set_macroArgs (Val (concat (map encodeArgument args))) this)
  ∧ (exists this',
       reloadArgs bodyToLatex this = Return this'
       ∧ macroArgs this' = Val (concat (map encodeArgument args)))
  ∧ (forall i a, args !! i = Some (Some a) ->
       noOuterWhiteSpace a
       ∧ encodeArgument (Some a) = str "{" ++ a ++ str "}"
       ∧ exists regex matchResult j raw,
           parse (regexSource (def this)) = Some regex
           ∧ exec regex (bodyToLatex (body this) reloadArgsOptions) = Some matchResult
           ∧ matchResult !! j = Some raw
           ∧ a = trim raw)
  ∧ exec (regexOf (str "\foo{#1}{#2}")) (str "\foo{ a }{b}") = Some [str " a "; str "b"]
  ∧ reloadArgs latexOf (exampleMacro "\foo" (Val (str "{ a }{b}")) "\foo{#1}{#2}" "\foo{ a }{b}")
    = Return (set_macroArgs (Val (str "{a}{b}"))
                (exampleMacro "\foo" (Val (str "{ a }{b}")) "\foo{#1}{#2}" "\foo{ a }{b}"))
  ∧ (exists this',
       reloadArgs latexOf
         (exampleMacro "\foo" (Val (str "{ a }{b}")) "\foo{#1}{#2}" "\foo{ a }{b}")
       = Return this'
       ∧ macroArgs (exampleMacro "\foo" (Val (str "{ a }{b}")) "\foo{#1}{#2}" "\foo{ a }{b}")
         = Val (str "{ a }{b}")
       ∧ macroArgs this' = Val (str "{a}{b}")).
Proof.
  intros Hargs. split; [by apply reloadArgs_match|].
  split; [eexists; split; [by apply reloadArgs_match|reflexivity]|].
  split; [|split; [reflexivity|split; [reflexivity|]]].
  2: { eexists. split; [reflexivity|]. split; reflexivity. }
  intros i a Ha.
  destruct (def this) as [|c t] eqn:Hdef; [done|].
  destruct (bodyToLatex (body this) reloadArgsOptions) as [|x s] eqn:Hbody; [done|].
  rewrite extract_unfold in Hargs by done.
  destruct (matchTerms _ _ _) as [matchResult|] eqn:Hm; [|done].
  injection Hargs as <-.
  apply resultOf_lookup in Ha as (j & raw & _ & Hraw & ->).
  split; [apply trim_noOuterWhiteSpace|]. split; [done|].
  exists (regexOf (c :: t)), matchResult, j, raw.
  split; [apply parse_regexSource|]. by rewrite exec_regexOf.
Qed.

Lemma captured_arguments_trimmed_witness :
  reloadArgs latexOf (exampleMacro "\foo" Null "\foo{#1}{#2}" "\foo{ a }{b}")
  = Return (set_macroArgs (Val (str "{a}{b}"))
              (exampleMacro "\foo" Null "\foo{#1}{#2}" "\foo{ a }{b}"))
  ∧ macroArgs (exampleMacro "\foo" Null "\foo{#1}{#2}" "\foo{ a }{b}") = Null
  ∧ exists this',
      reloadArgs latexOf (exampleMacro "\foo" Null "\foo{#1}{#2}" "\foo{ a }{b}")
      = Return this'
      ∧ macroArgs this' = Val (str "{a}{b}").
Proof.
  destruct (captured_arguments_trimmed LatexBody latexOf
              (exampleMacro "\foo" Null "\foo{#1}{#2}" "\foo{ a }{b}")
              [Some (str "a"); Some (str "b")])
    as (H & (this' & Hcall & Hread) & _); [reflexivity|].
  split; [rewrite H; reflexivity|]. split; [reflexivity|].
  exists this'. split; [exact Hcall|]. rewrite Hread. reflexivity.
Defined.

(** ** The walk up the ownership chain *)

Section Walk.

Context {Body : Type}.

Local Abbreviation Heap := (gmap AtomRef (TreeAtom Body)).

Variable bodyToLatex : Heap -> Body -> ToLatexOptions -> jsstring.

Lemma reloadArgs_sets_macroArgs (f : Body -> ToLatexOptions -> jsstring)
  (this this' : MacroAtom Body) :
  reloadArgs f this = Return this' -> exists v, this' = set_macroArgs v this.
Proof.
  unfold reloadArgs. destruct (extractArgumentsWithOrder _ _); [|done].
  intros [= <-]. eauto.
Qed.

(** Setting the argument encoding of one node changes no parent. *)
Lemma ancestry_update (heap : Heap) (p : AtomRef) (a : TreeAtom Body)
  (o : AtomObject Body) (start : option AtomRef) (chain : list AtomRef) :
  heap !! p = Some a ->
  ancestry heap start chain ->
  ancestry (<[p := {| object := o; parent := parent a |}]> heap) start chain.
Proof.
  intros Hp. induction 1 as [|q b chain Hq Hrest IH]; [constructor|].
  destruct (decide (p = q)) as [->|Hne].
  - apply ancestry_up with {| object := o; parent := parent a |}.
    + by rewrite lookup_insert_eq.
    + simpl. assert (a = b) as -> by congruence. done.
  - apply ancestry_up with b; [by rewrite lookup_insert_ne|done].
Qed.

Lemma isMacroNode_update (heap : Heap) (p : AtomRef) (a : TreeAtom Body)
  (this : MacroAtom Body) (v : Nullable jsstring) (q : AtomRef) :
  heap !! p = Some a -> object a = IsMacroAtom this ->
  isMacroNode (<[p := {| object := IsMacroAtom (set_macroArgs v this);
                         parent := parent a |}]> heap) q
  = isMacroNode heap q.
Proof.
  intros Hp Ho. unfold isMacroNode. destruct (decide (p = q)) as [->|Hne].
  - rewrite lookup_insert_eq, Hp. unfold atomType, instanceofMacroAtom. simpl.
    by rewrite Ho.
  - by rewrite lookup_insert_ne.
Qed.

Lemma macrosOf_update (heap : Heap) (p : AtomRef) (a : TreeAtom Body)
  (this : MacroAtom Body) (v : Nullable jsstring) (chain : list AtomRef) :
  heap !! p = Some a -> object a = IsMacroAtom this ->
  macrosOf (<[p := {| object := IsMacroAtom (set_macroArgs v this);
                      parent := parent a |}]> heap) chain
  = macrosOf heap chain.
Proof.
  intros Hp Ho. unfold macrosOf. apply filter_ext. intros q.
  by apply isMacroNode_update.
Qed.

Lemma definedMacros_update (heap : Heap) (p : AtomRef) (a : TreeAtom Body)
  (this : MacroAtom Body) (v : Nullable jsstring) (chain : list AtomRef) :
  heap !! p = Some a -> object a = IsMacroAtom this ->
  definedMacros heap (p :: chain) ->
  definedMacros (<[p := {| object := IsMacroAtom (set_macroArgs v this);
                           parent := parent a |}]> heap) chain.
Proof.
  intros Hp Ho Hdef q b that Hq Hb Hthat.
  destruct (decide (p = q)) as [->|Hne].
  - rewrite lookup_insert_eq in Hb. injection Hb as <-. simpl in Hthat.
    injection Hthat as <-. simpl. apply (Hdef q a this); [by left|done|done].
  - rewrite lookup_insert_ne in Hb by done. apply (Hdef q b that); [by right|done|done].
Qed.

(** The walk ends within as many iterations as the chain is long.  Its
    calls are a prefix of the macro nodes of the chain, in chain order, and
    all of them when every macro node has a definition template. *)
Lemma reloadParentsMacros_calls (heap : Heap) (start : option AtomRef)
  (chain : list AtomRef) (fuel : nat) :
  ancestry heap start chain -> (length chain <= fuel)%nat ->
  exists calls outcome,
    reloadParentsMacros bodyToLatex fuel heap start = Some (calls, outcome)
    ∧ calls `prefix_of` macrosOf heap chain
    ∧ (definedMacros heap chain ->
       calls = macrosOf heap chain ∧ exists heap', outcome = Return heap').
Proof.
  revert heap start fuel.
  induction chain as [|p' chain IH]; intros heap start fuel Hchain Hfuel.
  { inversion Hchain; subst. exists [], (Return heap).
    split; [by destruct fuel|]. split; [done|]. eauto. }
  inversion Hchain as [|p a chain' Hp Hrest]; subst.
  destruct fuel as [|fuel]; [simpl in Hfuel; lia|]. simpl in Hfuel.
  cbn [reloadParentsMacros]. rewrite Hp.
  assert (Hm : isMacroNode heap p'
               = JS.eqb (atomType a) (str "macro") && instanceofMacroAtom a).
  { unfold isMacroNode. by rewrite Hp. }
  assert (Hmac : macrosOf heap (p' :: chain)
                 = if isMacroNode heap p' then p' :: macrosOf heap chain
                   else macrosOf heap chain) by reflexivity.
  rewrite Hmac, Hm. clear Hmac Hm.
  destruct (JS.eqb (atomType a) (str "macro") && instanceofMacroAtom a) eqn:Hmacro.
  - destruct (object a) as [this|t] eqn:Ho.
    2:{ unfold instanceofMacroAtom in Hmacro. rewrite Ho in Hmacro.
        by rewrite andb_false_r in Hmacro. }
    destruct (reloadArgs (bodyToLatex heap) this) as [this'|e] eqn:Hreload.
    + destruct (reloadArgs_sets_macroArgs _ _ _ Hreload) as [v ->].
      destruct (IH (<[p' := {| object := IsMacroAtom (set_macroArgs v this);
                               parent := parent a |}]> heap) (parent a) fuel)
        as (calls & outcome & -> & Hpre & Hall).
      * by apply ancestry_update.
      * lia.
      * rewrite macrosOf_update in Hpre, Hall by done.
        exists (p' :: calls), outcome. split; [done|]. split; [by apply prefix_cons|].
        intros Hdef. destruct Hall as [-> Hret]; [|done].
        by eapply definedMacros_update.
    + exists [p'], (Throw e). split; [done|]. split.
      * apply prefix_cons, prefix_nil.
      * intros Hdef. apply reloadArgs_throw in Hreload as [Hempty _].
        destruct (Hdef p' a this); [by left|done|done|done].
  - destruct (IH heap (parent a) fuel) as (calls & outcome & Hw & Hpre & Hall);
      [done|lia|].
    exists calls, outcome. split; [done|]. split; [done|].
    intros Hdef. apply Hall. intros q b that Hq. apply Hdef. by right.
Qed.

Lemma ancestry_functional (heap : Heap) (start : option AtomRef)
  (c1 c2 : list AtomRef) :
  ancestry heap start c1 -> ancestry heap start c2 -> c1 = c2.
Proof.
  intros H1. revert c2. induction H1 as [|p a chain Hp Hrest IH]; intros c2 H2.
  - by inversion H2.
  - inversion H2 as [|p' a' chain' Hp' Hrest']; subst.
    f_equal. apply IH. assert (a = a') as -> by congruence. done.
Qed.

Lemma ancestry_suffix (heap : Heap) (start : option AtomRef)
  (chain : list AtomRef) (p : AtomRef) :
  ancestry heap start chain -> In p chain ->
  exists suffix, ancestry heap (Some p) (p :: suffix)
                 ∧ (length suffix < length chain)%nat.
Proof.
  induction 1 as [|q a chain Hq Hrest IH]; [done|].
  intros [->|Hin].
  - exists chain. split; [by eapply ancestry_up|simpl; lia].
  - destruct (IH Hin) as (suffix & Hs & Hlen). exists suffix. split; [done|simpl; lia].
Qed.

(** A chain that reaches the root passes through no node twice. *)
Lemma ancestry_NoDup (heap : Heap) (start : option AtomRef) (chain : list AtomRef) :
  ancestry heap start chain -> NoDup chain.
Proof.
  induction 1 as [|p a chain Hp Hrest IH]; [constructor|].
  constructor; [|done]. rewrite list_elem_of_In. intros Hin.
  destruct (ancestry_suffix _ _ _ _ Hrest Hin) as (suffix & Hs & Hlen).
  assert (p :: suffix = p :: chain) as [= ->]; [|lia].
  eapply ancestry_functional; [done|]. by eapply ancestry_up.
Qed.

End Walk.

Lemma NoDup_filterb {A} (f : A -> bool) (l : list A) :
  NoDup l -> NoDup (List.filter f l).
Proof.
  induction 1 as [|x l Hx Hl IH]; simpl; [constructor|].
  destruct (f x); [|done]. constructor; [|done].
  rewrite list_elem_of_In, filter_In, <- list_elem_of_In. tauto.
Qed.

(** C2, as the specification states it, fails on its own example: the walk
    goes up from the node it is given, so that, started at [plainNode], it
    never reaches [macroB], which lies below, and calls [reloadArgs()] on
    [macroA] alone. *)
Lemma walk_from_plainNode_misses_macroB :
  fst <$> reloadParentsMacros exampleSerializer 5 exampleTree (Some plainNode)
  = Some [macroA]
  ∧ isMacroNode exampleTree macroB = true
  ∧ ancestry exampleTree (Some editedLeaf) [editedLeaf; macroB; plainNode; macroA; root].
Proof.
  split; [by vm_compute|]. split; [by vm_compute|].
  repeat (eapply ancestry_up; [by vm_compute|]; simpl). constructor.
Qed.

(** C2, amended.  The walk started at a node follows the chain that goes
    from this node up to the root, ends, and calls [reloadArgs()] on macro
    nodes of the chain only, each at most once, nearest first; when every
    macro node of the chain has a definition template no call throws and
    every macro node of the chain is called.  In the example tree the walk
    from [macroB], the parent of the edited leaf, calls [macroB] then
    [macroA], and the walk from [plainNode] calls [macroA] only. *)
Theorem reloadParentsMacros_visits_macro_ancestors
  (Body : Type)
  (bodyToLatex : gmap AtomRef (TreeAtom Body) -> Body -> ToLatexOptions -> jsstring)
  (heap : gmap AtomRef (TreeAtom Body)) (start : option AtomRef)
  (chain : list AtomRef) (fuel : nat) :
  ancestry heap start chain -> (length chain <= fuel)%nat ->
  (exists calls outcome,
     reloadParentsMacros bodyToLatex fuel heap start = Some (calls, outcome)
     ∧ calls `prefix_of` macrosOf heap chain
     ∧ NoDup calls
     ∧ (forall p, In p calls -> In p chain ∧ isMacroNode heap p = true)
     ∧ (definedMacros heap chain ->
        calls = macrosOf heap chain ∧ exists heap', outcome = Return heap'))
  ∧ fst <$> reloadParentsMacros exampleSerializer 5 exampleTree (Some macroB)
    = Some [macroB; macroA]
  ∧ fst <$> reloadParentsMacros exampleSerializer 5 exampleTree (Some editedLeaf)
    = Some [macroB; macroA]
  ∧ fst <$> reloadParentsMacros exampleSerializer 5 exampleTree (Some plainNode)
    = Some [macroA].
Proof.
  intros Hchain Hfuel. split; [|by vm_compute].
  destruct (reloadParentsMacros_calls bodyToLatex heap start chain fuel Hchain Hfuel)
    as (calls & outcome & Hwalk & Hpre & Hall).
  exists calls, outcome. split; [done|]. split; [done|].
  assert (Hnodup : NoDup (macrosOf heap chain)).
  { apply NoDup_filterb. by eapply ancestry_NoDup. }
  destruct Hpre as [rest Hrest]. split; [|split; [|done]].
  - rewrite Hrest in Hnodup. by apply NoDup_app in Hnodup as (? & _).
  - intros p Hp. apply filter_In. fold (macrosOf heap chain).
    rewrite Hrest. apply in_or_app. by left.
Qed.

Lemma reloadParentsMacros_visits_macro_ancestors_witness :
  exists calls outcome,
    reloadParentsMacros exampleSerializer 7 exampleTree (Some editedLeaf)
    = Some (calls, outcome)
    ∧ calls `prefix_of`
        macrosOf exampleTree [editedLeaf; macroB; plainNode; macroA; root]
    ∧ NoDup calls
    ∧ (forall p, In p calls ->
         In p [editedLeaf; macroB; plainNode; macroA; root]
         ∧ isMacroNode exampleTree p = true)
    ∧ (definedMacros exampleTree [editedLeaf; macroB; plainNode; macroA; root] ->
       calls = macrosOf exampleTree [editedLeaf; macroB; plainNode; macroA; root]
       ∧ exists heap', outcome = Return heap').
Proof.
  apply (reloadParentsMacros_visits_macro_ancestors LatexBody exampleSerializer
           exampleTree (Some editedLeaf)
           [editedLeaf; macroB; plainNode; macroA; root] 7).
  - repeat (eapply ancestry_up; [by vm_compute|]; simpl). constructor.
  - simpl. lia.
Defined.

(** ** Templates given by their pieces *)

Lemma digitChar_digit (d : nat) : (d <= 9)%nat -> isDigit (digitChar d) = true.
Proof.
  intros Hd. unfold isDigit, digitChar.
  apply andb_true_iff. split; apply N.leb_le; lia.
Qed.

Lemma digitChar_inj (d d' : nat) : digitChar d = digitChar d' -> d = d'.
Proof. unfold digitChar. lia. Qed.

#[local] Arguments digitChar : simpl never.

Lemma segments_plain (l s : jsstring) :
  ~ In hash l -> segments (l ++ s) = map Literal l ++ segments s.
Proof.
  induction l as [|c l IH]; intros Hl; [done|]. simpl.
  destruct (N.eqb_spec c hash) as [->|Hne]; [destruct Hl; by left|].
  rewrite IH; [done|]. intros H. apply Hl. by right.
Qed.

Lemma leadingDigits_none (segs : list Segment) :
  noLeadingDigit segs -> leadingDigits segs = ([], segs).
Proof. destruct segs as [|[ds|c|] segs]; simpl; try done. by intros ->. Qed.

Lemma noLeadingDigit_literals (l : jsstring) (segs : list Segment) :
  (forall c, head l = Some c -> isDigit c = false) ->
  noLeadingDigit segs -> noLeadingDigit (map Literal l ++ segs).
Proof. destruct l as [|c l]; simpl; [done|]. intros H _. by apply H. Qed.

Lemma piecesSegments_cons (replaced : jsstring) (p : nat * jsstring)
  (pieces : list (nat * jsstring)) :
  piecesSegments replaced (p :: pieces)
  = pieceSegments replaced p ++ piecesSegments replaced pieces.
Proof. reflexivity. Qed.

Lemma noLeadingDigit_pieces (replaced : jsstring) (pieces : list (nat * jsstring)) :
  noLeadingDigit (piecesSegments replaced pieces).
Proof.
  destruct pieces as [|p pieces]; [done|]. rewrite piecesSegments_cons.
  unfold pieceSegments. by destruct (inb _ _).
Qed.

Lemma segments_hash (t : jsstring) :
  segments (hash :: t)
  = Placeholder (fst (leadingDigits (segments t))) :: snd (leadingDigits (segments t)).
Proof. reflexivity. Qed.

Lemma segments_other (c : char) (t : jsstring) :
  c <> hash -> segments (c :: t) = Literal c :: segments t.
Proof. intros Hc. cbn [segments]. by destruct (N.eqb_spec c hash). Qed.

Lemma leadingDigits_digit (c : char) (segs : list Segment) :
  isDigit c = true ->
  leadingDigits (Literal c :: segs)
  = (c :: fst (leadingDigits segs), snd (leadingDigits segs)).
Proof. intros Hc. cbn [leadingDigits]. by rewrite Hc. Qed.

(** The segments of a template given by its pieces. *)
Lemma segments_pieces (pieces : list (nat * jsstring)) :
  Forall plainPiece pieces -> Forall (fun p => (fst p <= 9)%nat) pieces ->
  segments (concat (map (fun p => hash :: digitChar (fst p) :: snd p) pieces))
  = piecesSegments [] pieces.
Proof.
  induction 1 as [|[d text] pieces [Hhash Hhead] Hrest IH]; intros Hd.
  { reflexivity. }
  inversion Hd as [|? ? Hd1 Hd']; subst. cbn [fst snd] in *.
  change (segments (hash :: digitChar d :: (text
            ++ concat (map (fun p => hash :: digitChar (fst p) :: snd p) pieces)))
          = piecesSegments [] ((d, text) :: pieces)).
  pose proof (digitChar_digit d Hd1) as Hdig.
  rewrite segments_hash, segments_other by by apply digit_not_hash.
  rewrite segments_plain, IH by done.
  rewrite leadingDigits_digit by done.
  rewrite leadingDigits_none; [reflexivity|].
  apply noLeadingDigit_literals; [done|apply noLeadingDigit_pieces].
Qed.

Lemma segments_templateOf (lead : jsstring) (pieces : list (nat * jsstring)) :
  ~ In hash lead -> Forall plainPiece pieces ->
  Forall (fun p => (fst p <= 9)%nat) pieces ->
  segments (templateOf lead pieces) = map Literal lead ++ piecesSegments [] pieces.
Proof.
  intros Hlead Hplain Hd. unfold templateOf.
  by rewrite segments_plain, segments_pieces.
Qed.

Lemma pending_pieces (pieces : list (nat * jsstring)) :
  pending (piecesSegments [] pieces) = map (fun p => [digitChar (fst p)]) pieces.
Proof.
  induction pieces as [|[d text] pieces IH]; [done|].
  rewrite piecesSegments_cons. unfold pieceSegments. cbn [fst snd inb existsb app pending].
  by rewrite pending_literals, IH.
Qed.

Lemma placeholderMatches_templateOf (lead : jsstring) (pieces : list (nat * jsstring)) :
  ~ In hash lead -> Forall plainPiece pieces ->
  Forall (fun p => (fst p <= 9)%nat) pieces ->
  placeholderMatches (templateOf lead pieces)
  = map (fun p => [digitChar (fst p)]) pieces.
Proof.
  intros Hlead Hplain Hd.
  by rewrite <- pending_segments, segments_templateOf, pending_literals, pending_pieces.
Qed.

Lemma replaceSegments_app (ds : jsstring) (xs ys : list Segment) :
  replaceSegments ds (xs ++ ys) = replaceSegments ds xs ++ replaceSegments ds ys.
Proof. unfold replaceSegments. by rewrite map_app, concat_app. Qed.

Lemma replaceSegments_literals (ds l : jsstring) :
  replaceSegments ds (map Literal l) = map Literal l.
Proof.
  induction l as [|c l IH]; [done|]. cbn [map]. rewrite replaceSegments_cons, IH. done.
Qed.

Lemma inb_cons (c x : char) (l : jsstring) : inb c (x :: l) = (c =? x) || inb c l.
Proof. reflexivity. Qed.

Lemma replaceSegments_piece (x : char) (replaced : jsstring) (p : nat * jsstring) :
  replaceSegments [x] (pieceSegments replaced p) = pieceSegments (x :: replaced) p.
Proof.
  unfold pieceSegments. rewrite replaceSegments_cons, replaceSegments_literals.
  rewrite inb_cons. destruct (inb (digitChar (fst p)) replaced).
  - by rewrite orb_true_r.
  - rewrite orb_false_r. cbn [replaceSegment]. rewrite startsWith_cons.
    rewrite (N.eqb_sym x). by destruct (digitChar (fst p) =? x).
Qed.

Lemma replaceSegments_pieces (x : char) (replaced : jsstring)
  (pieces : list (nat * jsstring)) :
  replaceSegments [x] (piecesSegments replaced pieces)
  = piecesSegments (x :: replaced) pieces.
Proof.
  induction pieces as [|p pieces IH]; [done|].
  by rewrite !piecesSegments_cons, replaceSegments_app, replaceSegments_piece, IH.
Qed.

Lemma substitute_pieces (M replaced lead : jsstring) (pieces : list (nat * jsstring)) :
  substituteSegments (map (fun x => [x]) M)
    (map Literal lead ++ piecesSegments replaced pieces)
  = map Literal lead ++ piecesSegments (rev M ++ replaced) pieces.
Proof.
  revert replaced. induction M as [|x M IH]; intros replaced; [done|].
  cbn [map]. rewrite substituteSegments_cons, replaceSegments_app.
  rewrite replaceSegments_literals, replaceSegments_pieces, IH.
  cbn [rev]. by rewrite <- app_assoc.
Qed.

Lemma terms_app (xs ys : list Segment) : terms (xs ++ ys) = terms xs ++ terms ys.
Proof. unfold terms. by rewrite map_app, concat_app. Qed.

Lemma terms_literals (l : jsstring) : terms (map Literal l) = map PatternChar l.
Proof. induction l as [|c l IH]; [done|]. cbn [map]. by rewrite <- IH. Qed.

Lemma terms_pieces (replaced : jsstring) (pieces : list (nat * jsstring)) :
  (forall p, In p pieces -> inb (digitChar (fst p)) replaced = true) ->
  terms (piecesSegments replaced pieces) = piecesTerms pieces.
Proof.
  induction pieces as [|p pieces IH]; intros Hall; [done|].
  rewrite piecesSegments_cons, terms_app, IH by (intros q Hq; apply Hall; by right).
  unfold pieceSegments. rewrite (Hall p) by by left.
  change (terms (Group :: ?l)) with (LazyGroup :: terms l). by rewrite terms_literals.
Qed.

(** The regex of a template given by its pieces: the literal texts, with a
    lazy group at every placeholder. *)
Lemma regexBody_templateOf (lead : jsstring) (pieces : list (nat * jsstring)) :
  ~ In hash lead -> Forall plainPiece pieces ->
  Forall (fun p => (fst p <= 9)%nat) pieces ->
  regexBody (templateOf lead pieces)
  = map PatternChar lead ++ piecesTerms pieces ++ [AssertEnd].
Proof.
  intros Hlead Hplain Hd. unfold regexBody.
  rewrite placeholderMatches_templateOf, segments_templateOf by done.
  rewrite <- (map_map (fun p => digitChar (fst p)) (fun x => [x])).
  rewrite substitute_pieces, terms_app, terms_literals, terms_pieces.
  - by rewrite <- app_assoc.
  - intros p Hp. apply inb_true. rewrite app_nil_r.
    apply list_elem_of_In, in_rev. rewrite rev_involutive.
    apply in_map_iff. eauto.
Qed.

(** ** Matching the expansion of a template *)

Lemma lazyGroup_unfold (k : bool -> jsstring -> option (list jsstring))
  (acc : jsstring) (b : bool) (s : jsstring) :
  lazyGroup k acc b s
  = match k b s with
    | Some caps => Some (rev acc :: caps)
    | None =>
      match s with
      | x :: s' => if isLineTerminator x then None else lazyGroup k (x :: acc) false s'
      | [] => None
      end
    end.
Proof. by destruct s. Qed.

(** A lazy group captures the text [a] when the rest of the pattern fails
    at every position inside [a] and succeeds right after it. *)
Lemma lazyGroup_capture (k : bool -> jsstring -> option (list jsstring))
  (a s : jsstring) (caps : list jsstring) (acc : jsstring) (b : bool) :
  forallb (fun c => negb (isLineTerminator c)) a = true ->
  (forall a1 x a2 b', a = a1 ++ x :: a2 -> k b' (x :: a2 ++ s) = None) ->
  (forall b', k b' s = Some caps) ->
  lazyGroup k acc b (a ++ s) = Some ((rev acc ++ a) :: caps).
Proof.
  intros Hlt Hfail Hok. revert acc b Hlt Hfail.
  induction a as [|x a IH]; intros acc b Hlt Hfail.
  - rewrite lazyGroup_unfold. cbn [app]. by rewrite Hok, app_nil_r.
  - rewrite lazyGroup_unfold. cbn [app].
    rewrite (Hfail [] x a b eq_refl).
    cbn [forallb] in Hlt. apply andb_true_iff in Hlt as [Hx Hlt].
    apply negb_true_iff in Hx. rewrite Hx.
    rewrite IH; [|done|].
    + cbn [rev]. by rewrite <- app_assoc.
    + intros a1 y a2 b' ->. apply (Hfail (x :: a1) y a2 b'). done.
Qed.

Lemma piecesTerms_cons (p : nat * jsstring) (pieces : list (nat * jsstring)) :
  piecesTerms (p :: pieces) = LazyGroup :: map PatternChar (snd p) ++ piecesTerms pieces.
Proof. reflexivity. Qed.

Lemma anchorFree_pieces (pieces : list (nat * jsstring)) :
  anchorFree (piecesTerms pieces ++ [AssertEnd]) = true.
Proof.
  induction pieces as [|p pieces IH]; [done|].
  rewrite piecesTerms_cons. cbn [app anchorFree forallb]. fold (anchorFree).
  change (forallb _ ?l) with (anchorFree l).
  by rewrite <- app_assoc, anchorFree_app, anchorFree_literals, IH.
Qed.

Lemma argument_clean (args : list jsstring) (d : nat) :
  Forall cleanArgument args -> cleanArgument (argument args d).
Proof.
  intros Hargs. unfold argument.
  destruct (nth_in_or_default (pred d) args []) as [Hin| ->].
  - rewrite Forall_forall in Hargs. apply Hargs. by apply list_elem_of_In.
  - by repeat split.
Qed.

(** The regex of the pieces matches the expansion, and each group captures
    the argument of its placeholder. *)
Lemma match_pieces (args : list jsstring) (pieces : list (nat * jsstring)) (b : bool) :
  Forall cleanArgument args -> separated args pieces ->
  matchTerms (piecesTerms pieces ++ [AssertEnd]) b
    (concat (map (fun p => argument args (fst p) ++ snd p) pieces))
  = Some (map (fun p => argument args (fst p)) pieces).
Proof.
  intros Hargs. revert b. induction pieces as [|[d text] rest IH]; intros b Hsep; [done|].
  destruct Hsep as [Hhere Hsep]. specialize (IH false Hsep).
  rewrite piecesTerms_cons. cbn [map concat fst snd].
  rewrite <- !app_assoc. cbn [app matchTerms].
  rewrite (lazyGroup_capture _ (argument args d) _
             (map (fun p => argument args (fst p)) rest)); [done| | |].
  - by destruct (argument_clean args d Hargs) as [_ H].
  - intros a1 x a2 b' Ha. destruct rest as [|q rest'].
    + cbn [piecesTerms map concat app]. rewrite app_nil_r, matchTerms_exact.
      rewrite decide_False; [done|]. intros E.
      apply (f_equal length) in E. rewrite length_cons, !length_app in E. lia.
    + cbn [fst snd] in Hhere. destruct text as [|c text']; [done|].
      cbn [map app matchTerms]. destruct (N.eqb_spec c x) as [->|]; [|done].
      destruct Hhere. rewrite Ha. apply in_or_app. right. by left.
  - intros b'. rewrite <- app_assoc.
    rewrite matchTerms_literal by apply anchorFree_pieces. apply IH.
Qed.

(** ** The arguments recovered from an expansion *)

Lemma slotName_digitChar (i : nat) : slotName i = placeholderName [digitChar (S i)].
Proof.
  unfold slotName, placeholderName, digitChar.
  by replace (49 + i)%nat with (48 + S i)%nat by lia.
Qed.

Lemma placeholderName_digitChar_inj (d d' : nat) :
  Some (placeholderName [digitChar d]) = Some (placeholderName [digitChar d']) -> d = d'.
Proof.
  intros H. apply digitChar_inj.
  apply (f_equal (fun o => nth 1 (default [] o) 0)) in H. exact H.
Qed.

Lemma popUndefined_undefined (n : nat) : popUndefined (replicate n None) = [].
Proof. induction n as [|n IH]; [done|]. cbn [replicate popUndefined]. by rewrite IH. Qed.

Lemma popUndefined_defined (l : list jsstring) (n : nat) :
  popUndefined (map Some l ++ replicate n None) = map Some l.
Proof.
  induction l as [|a l IH]; [apply popUndefined_undefined|].
  cbn [map app popUndefined]. rewrite IH. by destruct (map Some l).
Qed.

Lemma encodeArgument_defined (args : list jsstring) :
  concat (map encodeArgument (map Some args)) = encodingOf args.
Proof. unfold encodingOf. by rewrite map_map. Qed.

Section Recovery.

Variables (args : list jsstring) (lead : jsstring) (pieces : list (nat * jsstring)).

Hypothesis args_few : (length args <= 8)%nat.
Hypothesis numbers : forall d, In d (map fst pieces) <-> (1 <= d <= length args)%nat.
Hypothesis lead_plain : ~ In hash lead.
Hypothesis pieces_plain : Forall plainPiece pieces.
Hypothesis args_clean : Forall cleanArgument args.
Hypothesis pieces_separated : separated args pieces.

Lemma pieces_digits : Forall (fun p => (fst p <= 9)%nat) pieces.
Proof using args_few numbers.
  apply Forall_forall. intros p Hp%list_elem_of_In.
  assert (In (fst p) (map fst pieces)) as Hd%numbers by by apply in_map. lia.
Qed.

Lemma placeholders_templateOf :
  map placeholderName (placeholderMatches (templateOf lead pieces))
  = map (fun p => placeholderName [digitChar (fst p)]) pieces.
Proof using args_few numbers lead_plain pieces_plain.
  rewrite placeholderMatches_templateOf by (done || apply pieces_digits).
  by rewrite map_map.
Qed.

Lemma readSlot_templateOf (i : nat) :
  readSlot
    (fillOutput (map placeholderName (placeholderMatches (templateOf lead pieces))) 0
       (map (fun p => argument args (fst p)) pieces) ∅)
    (slotName i)
  = if decide (i < length args)%nat then Some (nth i args []) else None.
Proof using args_few numbers lead_plain pieces_plain args_clean.
  rewrite readSlot_fillOutput, placeholders_templateOf, slotName_digitChar.
  destruct (lastIndexOf _ _) as [j|] eqn:Hj.
  - apply lastIndexOf_Some in Hj. rewrite list_lookup_fmap in Hj.
    destruct (pieces !! j) as [p|] eqn:Hp; [|done]. cbn [fmap option_fmap option_map] in Hj.
    apply placeholderName_digitChar_inj in Hj.
    rewrite list_lookup_fmap, Hp. simpl. rewrite Hj. unfold argument. simpl.
    assert (In (S i) (map fst pieces)) as Hd%numbers.
    { rewrite <- Hj. apply in_map. apply list_elem_of_In, list_elem_of_lookup. eauto. }
    rewrite decide_True by lia. f_equal. apply trim_fixed.
    rewrite Forall_forall in args_clean. apply args_clean.
    apply list_elem_of_In, nth_In. lia.
  - apply lastIndexOf_None in Hj. rewrite decide_False; [done|]. intros Hi.
    apply Hj. apply in_map_iff.
    assert (In (S i) (map fst pieces)) as Hd by (apply numbers; lia).
    apply in_map_iff in Hd as (p & Hp1 & Hp2). exists p. by rewrite Hp1.
Qed.

Lemma resultOf_templateOf :
  resultOf (templateOf lead pieces) (map (fun p => argument args (fst p)) pieces)
  = map Some args.
Proof using args_few numbers lead_plain pieces_plain args_clean.
  unfold resultOf.
  rewrite <- (popUndefined_defined args (8 - length args)). f_equal.
  apply list_eq. intros i. rewrite list_lookup_fmap.
  destruct (decide (i < 8)%nat) as [Hi|Hi].
  - rewrite lookup_seq_lt by done. simpl. rewrite readSlot_templateOf.
    case_decide as Hk.
    + rewrite lookup_app_l by (rewrite length_map; lia).
      rewrite list_lookup_fmap.
      destruct (lookup_lt_is_Some_2 args i Hk) as [x Hx].
      by rewrite Hx, (nth_lookup_Some _ _ _ _ Hx).
    + rewrite lookup_app_r by (rewrite length_map; lia).
      symmetry. apply lookup_replicate_2. rewrite length_map. lia.
  - rewrite lookup_seq_ge by lia. symmetry. apply lookup_ge_None.
    rewrite length_app, length_map, length_replicate. lia.
Qed.

(** Matching the expansion of a template against the template gives back
    the arguments. *)
Lemma extract_expansion :
  expansionOf args lead pieces <> [] ->
  extractArgumentsWithOrder (templateOf lead pieces) (expansionOf args lead pieces)
  = Return (Some (map Some args)).
Proof using All.
  intros Hbody.
  assert (Ht : templateOf lead pieces <> []).
  { intros E. apply Hbody. unfold templateOf, expansionOf in *.
    apply app_eq_nil in E as [-> E]. destruct pieces; [done|discriminate]. }
  rewrite extract_unfold, regexBody_templateOf by (done || apply pieces_digits).
  unfold expansionOf.
  rewrite matchTerms_literal by apply anchorFree_pieces.
  rewrite match_pieces by done. by rewrite resultOf_templateOf.
Qed.

End Recovery.

(** ** Reconciliation without an edit *)

(** C1, as the specification states it, fails.  For the template [#1#2]
    and the arguments [{a}{b}] the body serializes to [ab], which the lazy
    groups split as the empty text and [ab]: [reloadArgs()] changes the
    encoding to [{}{ab}].  For a macro without arguments, constructed with
    [null], it changes the encoding to the empty string. *)
Lemma reloadArgs_changes_encoding :
  macroArgs (exampleMacro "\pair" (Val (str "{a}{b}")) "#1#2" "ab") = Val (str "{a}{b}")
  ∧ reloadArgs latexOf (exampleMacro "\pair" (Val (str "{a}{b}")) "#1#2" "ab")
    = Return (set_macroArgs (Val (str "{}{ab}"))
                (exampleMacro "\pair" (Val (str "{a}{b}")) "#1#2" "ab"))
  ∧ macroArgs (exampleMacro "\k" Null "constant" "constant") = Null
  ∧ reloadArgs latexOf (exampleMacro "\k" Null "constant" "constant")
    = Return (set_macroArgs (Val []) (exampleMacro "\k" Null "constant" "constant")).
Proof. repeat split; reflexivity. Qed.

(** C1, amended.  Take a template whose placeholders are single digits,
    the numbers 1 to k for k arguments, k at most 8; whose text holds no
    other [#] and no digit right after a placeholder; and in which every
    placeholder but the last is followed by a text whose first character
    does not occur in the argument put there.  Take arguments without
    white space at their ends and without line terminator.  For a node
    constructed with this template, the arguments each between braces as
    its encoding, and a body that serializes to the expansion of the
    template, non-empty, [reloadArgs()] right after the construction leaves
    the node, and so its argument encoding, as it is. *)
Theorem reloadArgs_round_trip
  (Body : Type) (bodyToLatex : Body -> ToLatexOptions -> jsstring)
  (macro : jsstring) (options : MacroOptions Body)
  (lead : jsstring) (pieces : list (nat * jsstring)) (args : list jsstring) :
  (length args <= 8)%nat ->
  (forall d, In d (map fst pieces) <-> (1 <= d <= length args)%nat) ->
  ~ In hash lead ->
  Forall plainPiece pieces ->
  Forall cleanArgument args ->
  separated args pieces ->
  opt_def options = templateOf lead pieces ->
  opt_args options = Val (encodingOf args) ->
  bodyToLatex (opt_body options) reloadArgsOptions = expansionOf args lead pieces ->
  expansionOf args lead pieces <> [] ->
  reloadArgs bodyToLatex (new_MacroAtom macro options)
  = Return (new_MacroAtom macro options)
  ∧ macroArgs (new_MacroAtom macro options) = Val (encodingOf args).
Proof.
  intros Hfew Hnum Hlead Hplain Hclean Hsep Hdef Hargs Hbody Hne.
  split; [|done].
  rewrite (reloadArgs_match bodyToLatex _ (map Some args)).
  - rewrite encodeArgument_defined. f_equal.
    unfold new_MacroAtom, set_macroArgs. cbn. by rewrite Hargs.
  - change (def (new_MacroAtom macro options)) with (opt_def options).
    change (body (new_MacroAtom macro options)) with (opt_body options).
    rewrite Hdef, Hbody. by apply extract_expansion.
Qed.

Lemma reloadArgs_round_trip_witness :
  reloadArgs latexOf
    (exampleMacro "\foo" (Val (str "{a}{b+c}")) "\frac{#1}{#2}" "\frac{a}{b+c}")
  = Return (exampleMacro "\foo" (Val (str "{a}{b+c}")) "\frac{#1}{#2}" "\frac{a}{b+c}")
  ∧ macroArgs (exampleMacro "\foo" (Val (str "{a}{b+c}")) "\frac{#1}{#2}" "\frac{a}{b+c}")
    = Val (str "{a}{b+c}").
Proof.
  apply (reloadArgs_round_trip LatexBody latexOf (str "\foo")
           {| opt_expand := None; opt_args := Val (str "{a}{b+c}");
              opt_body := str "\frac{a}{b+c}"; opt_captureSelection := None;
              opt_style := ∅; opt_def := str "\frac{#1}{#2}" |}
           (str "\frac{") [(1%nat, str "}{"); (2%nat, str "}")]
           [str "a"; str "b+c"]).
  - simpl. lia.
  - intros d. simpl. lia.
  - intros H%list_elem_of_In%inb_true. by vm_compute in H.
  - repeat constructor; try (intros H%list_elem_of_In%inb_true; by vm_compute in H);
      intros c [= <-]; reflexivity.
  - repeat constructor; intros c [= <-]; reflexivity.
  - split; [|done]. intros H%list_elem_of_In%inb_true. by vm_compute in H.
  - reflexivity.
  - reflexivity.
  - reflexivity.
  - discriminate.
Defined.

(** * Further properties *)

(** ** Soundness of a match *)

Lemma lineFree_nil : lineFree [].
Proof. reflexivity. Qed.

Lemma lazyGroup_sound (k : bool -> jsstring -> option (list jsstring))
  (acc : jsstring) (b : bool) (s : jsstring) (caps : list jsstring) :
  lazyGroup k acc b s = Some caps ->
  exists a s' caps' b',
    s = a ++ s' ∧ caps = (rev acc ++ a) :: caps' ∧ k b' s' = Some caps' ∧ lineFree a.
Proof.
  revert acc b. induction s as [|x s IH]; intros acc b; rewrite lazyGroup_unfold.
  - destruct (k b []) as [c|] eqn:Hk; [|done]. intros [= <-].
    exists [], [], c, b. rewrite !app_nil_r. by repeat split.
  - destruct (k b (x :: s)) as [c|] eqn:Hk.
    + intros [= <-]. exists [], (x :: s), c, b. rewrite !app_nil_r. by repeat split.
    + destruct (isLineTerminator x) eqn:Hx; [done|]. intros H.
      apply IH in H as (a & s' & caps' & b' & -> & -> & Hk' & Ha).
      exists (x :: a), s', caps', b'. repeat split; [|done|].
      * cbn [rev]. by rewrite <- app_assoc.
      * unfold lineFree. cbn [forallb]. by rewrite Hx, Ha.
Qed.

(** A match accounts for the input, character by character: the input
    begins with the text that the pattern spells with the captures in its
    groups, and is exactly this text when the pattern ends with [$]. *)
Lemma matchTerms_sound (ts : list Term) (b : bool) (s : jsstring) (caps : list jsstring) :
  matchTerms ts b s = Some caps ->
  exists rest,
    s = fillCaptures ts caps ++ rest
    ∧ Forall lineFree caps
    ∧ (last ts = Some AssertEnd -> rest = []).
Proof.
  revert b s caps. induction ts as [|t ts IH]; intros b s caps.
  - intros [= <-]. by exists s.
  - assert (Hlast : forall rest : jsstring, (last ts = Some AssertEnd -> rest = []) ->
              ts <> [] \/ t <> AssertEnd ->
              last (t :: ts) = Some AssertEnd -> rest = []).
    { intros rest Hrest Hcase Hl. destruct ts as [|t' ts'].
      - destruct Hcase as [?|Ht]; [done|]. simpl in Hl. congruence.
      - apply Hrest. by rewrite <- Hl. }
    destruct t; cbn [matchTerms fillCaptures].
    + destruct s as [|x s]; [done|]. destruct (N.eqb_spec c x) as [->|]; [|done].
      intros H. apply IH in H as (rest & -> & Hlf & Hend).
      exists rest. split; [done|]. split; [done|]. apply Hlast; [done|by right].
    + destruct b; [|done]. intros H. apply IH in H as (rest & -> & Hlf & Hend).
      exists rest. split; [done|]. split; [done|]. apply Hlast; [done|by right].
    + destruct s as [|x s]; [|done]. intros H.
      apply IH in H as (rest & Hs & Hlf & Hend). symmetry in Hs.
      apply app_eq_nil in Hs as [Hf ->]. exists []. by rewrite Hf.
    + intros H. apply lazyGroup_sound in H as (a & s' & caps' & b' & -> & -> & Hk & Ha).
      apply IH in Hk as (rest & -> & Hlf & Hend).
      exists rest. split; [by rewrite <- app_assoc|]. split; [by constructor|].
      apply Hlast; [done|by right].
Qed.

Lemma fillCaptures_regexOf (template : jsstring) (caps : list jsstring) :
  fillCaptures (regexOf template) caps = fillCaptures (regexBody template) caps.
Proof. reflexivity. Qed.

Lemma extract_match_inv (template inputString : jsstring)
  (result : list (option jsstring)) :
  extractArgumentsWithOrder template inputString = Return (Some result) ->
  template <> [] ∧ inputString <> []
  ∧ exists matchResult,
      exec (regexOf template) inputString = Some matchResult
      ∧ result = resultOf template matchResult.
Proof.
  intros H. destruct template as [|c t]; [done|].
  destruct inputString as [|x s]; [done|].
  rewrite extract_unfold in H by done. rewrite exec_regexOf.
  destruct (matchTerms _ _ _) as [caps|]; [|done]. injection H as <-. eauto.
Qed.

(** X1.  A successful match accounts for the whole body: the body is the
    text that the regex spells when each group holds its capture, no
    capture holds a line terminator, and there is one capture for every
    placeholder match of the template. *)
Theorem match_accounts_for_input
  (template inputString : jsstring) (regex : list Term) (matchResult : list jsstring) :
  parse (regexSource template) = Some regex ->
  exec regex inputString = Some matchResult ->
  inputString = fillCaptures regex matchResult
  ∧ Forall lineFree matchResult
  ∧ length matchResult = length (placeholderMatches template).
Proof.
  intros Hparse Hexec. rewrite parse_regexSource in Hparse. injection Hparse as <-.
  split; [|split; [|by eapply exec_length]].
  - rewrite exec_regexOf in Hexec.
    apply matchTerms_sound in Hexec as (rest & Hs & _ & Hend).
    rewrite Hend in Hs; [by rewrite app_nil_r in Hs|].
    unfold regexBody. apply last_snoc.
  - rewrite exec_regexOf in Hexec. by apply matchTerms_sound in Hexec as (rest & _ & H & _).
Qed.

Lemma match_accounts_for_input_witness :
  str "\frac{a}{b+c}"
  = fillCaptures (regexOf (str "\frac{#1}{#2}")) [str "a"; str "b+c"]
  ∧ Forall lineFree [str "a"; str "b+c"]
  ∧ length [str "a"; str "b+c"] = length (placeholderMatches (str "\frac{#1}{#2}")).
Proof.
  apply (match_accounts_for_input (str "\frac{#1}{#2}") (str "\frac{a}{b+c}")
           (regexOf (str "\frac{#1}{#2}")) [str "a"; str "b+c"]); reflexivity.
Defined.

(** ** The result array *)

Lemma popUndefined_last (l : list (option jsstring)) :
  popUndefined l <> [] -> exists a, last (popUndefined l) = Some (Some a).
Proof.
  induction l as [|x l IH]; [done|]. cbn [popUndefined].
  destruct (popUndefined l) as [|y r] eqn:E.
  - destruct x as [a|]; [|done]. intros _. by exists a.
  - intros _. destruct IH as [a Ha]; [done|]. exists a.
    destruct x; by rewrite <- Ha.
Qed.

Lemma popUndefined_length (l : list (option jsstring)) :
  (length (popUndefined l) <= length l)%nat.
Proof.
  induction l as [|x l IH]; [done|]. cbn [popUndefined].
  destruct (popUndefined l) as [|y r]; [destruct x|destruct x]; simpl in *; lia.
Qed.

Lemma lineFree_trim (a : jsstring) : lineFree a -> lineFree (trim a).
Proof.
  destruct (trim_split a) as (l & r & Ha & _). unfold lineFree. intros H.
  rewrite Ha, !forallb_app in H. apply andb_true_iff in H as [_ H].
  by apply andb_true_iff in H as [H _].
Qed.

Lemma resultOf_length (template : jsstring) (matchResult : list jsstring) :
  (length (resultOf template matchResult) <= 8)%nat.
Proof.
  unfold resultOf. etrans; [apply popUndefined_length|].
  by rewrite length_map, length_seq.
Qed.

(** X2.  In the sequence that the matcher returns, entry [i] is defined
    exactly for the names [#1] to [#8] that occur as placeholders of the
    template: placeholders of any other name are never returned.  The
    sequence has at most 8 entries and undefined entries only as gaps
    before a defined one. *)
Theorem returned_arguments_defined
  (template inputString : jsstring) (result : list (option jsstring)) :
  extractArgumentsWithOrder template inputString = Return (Some result) ->
  (length result <= 8)%nat
  ∧ (forall i, (exists a, result !! i = Some (Some a))
       <-> (i < 8)%nat
           ∧ In (slotName i) (map placeholderName (placeholderMatches template)))
  ∧ (forall i, result !! i = Some None ->
       exists i', (i < i' < 8)%nat
         ∧ In (slotName i') (map placeholderName (placeholderMatches template))).
Proof.
  intros H. apply extract_match_inv in H as (Ht & Hs & caps & Hexec & ->).
  pose proof (exec_length _ _ _ Hexec) as Hlen.
  assert (Hfwd : forall i a, resultOf template caps !! i = Some (Some a) ->
            (i < 8)%nat
            ∧ In (slotName i) (map placeholderName (placeholderMatches template))).
  { intros i a Ha. split.
    - unfold resultOf in Ha. apply popUndefined_lookup, lookup_lt_Some in Ha.
      by rewrite length_map, length_seq in Ha.
    - apply resultOf_lookup in Ha as (j & raw & Hj & _).
      apply lastIndexOf_Some in Hj. apply list_elem_of_In, list_elem_of_lookup. eauto. }
  split; [|split].
  - apply resultOf_length.
  - intros i. split; [intros [a Ha]; by eapply Hfwd|]. intros [Hi Hin].
    destruct (lastIndexOf (slotName i) (map placeholderName (placeholderMatches template)))
      as [j|] eqn:Hj; [|by apply lastIndexOf_None in Hj].
    pose proof (lastIndexOf_Some _ _ _ Hj) as Hj'. apply lookup_lt_Some in Hj'.
    rewrite length_map, <- Hlen in Hj'.
    destruct (lookup_lt_is_Some_2 caps j Hj') as [raw Hraw].
    exists (trim raw). by eapply resultOf_last_occurrence.
  - intros i Hi.
    destruct (popUndefined_last
                (map (fun i => readSlot
                   (fillOutput (map placeholderName (placeholderMatches template)) 0 caps ∅)
                   (slotName i)) (seq 0 8))) as [a Ha].
    { fold (resultOf template caps). intros E. by rewrite E in Hi. }
    fold (resultOf template caps) in Ha. rewrite last_lookup in Ha.
    exists (pred (length (resultOf template caps))).
    apply lookup_lt_Some in Hi as Hlt.
    assert (i <> pred (length (resultOf template caps))) by congruence.
    destruct (Hfwd _ _ Ha) as [H8 Hin]. split; [lia|done].
Qed.

Lemma returned_arguments_defined_witness :
  (length [None; None; Some (str "q")] <= 8)%nat
  ∧ (forall i, (exists a, [None; None; Some (str "q")] !! i = Some (Some a))
       <-> (i < 8)%nat
           ∧ In (slotName i) (map placeholderName (placeholderMatches (str "x#3y#9"))))
  ∧ (forall i, [None; None; Some (str "q")] !! i = Some None ->
       exists i', (i < i' < 8)%nat
         ∧ In (slotName i') (map placeholderName (placeholderMatches (str "x#3y#9")))).
Proof.
  apply (returned_arguments_defined (str "x#3y#9") (str "xqyz")). reflexivity.
Defined.

(** ** The encoding that reconciliation leaves *)

Lemma encodeArgument_default (result : list (option jsstring)) :
  concat (map encodeArgument result) = encodingOf (map (default []) result).
Proof. unfold encodingOf. by rewrite map_map. Qed.

Lemma noOuterWhiteSpace_nil : noOuterWhiteSpace [].
Proof. by split. Qed.

(** X3.  After [reloadArgs()] the argument encoding is [null], or a string
    made of at most 8 segments between braces, each a text without white
    space at its ends and without line terminator (the empty text for an
    undefined argument).  It is never [undefined]. *)
Theorem reloadArgs_encoding_shape
  (Body : Type) (bodyToLatex : Body -> ToLatexOptions -> jsstring)
  (this this' : MacroAtom Body) :
  reloadArgs bodyToLatex this = Return this' ->
  macroArgs this' = Null
  \/ exists args,
       (length args <= 8)%nat
       ∧ Forall noOuterWhiteSpace args
       ∧ Forall lineFree args
       ∧ macroArgs this' = Val (encodingOf args).
Proof.
  unfold reloadArgs.
  destruct (extractArgumentsWithOrder _ _) as [[result|]|e] eqn:Hx; [| |done].
  2:{ intros [= <-]. by left. }
  intros [= <-]. right. exists (map (default []) result).
  apply extract_match_inv in Hx as (_ & _ & caps & Hexec & ->).
  pose proof (resultOf_length (def this) caps) as Hlen.
  rewrite exec_regexOf in Hexec.
  apply matchTerms_sound in Hexec as (_ & _ & Hlf & _).
  rewrite length_map. split; [done|].
  assert (Hall : Forall (fun a : jsstring => noOuterWhiteSpace a ∧ lineFree a)
                   (map (default []) (resultOf (def this) caps))).
  { apply Forall_forall. intros a Ha%list_elem_of_In.
    apply in_map_iff in Ha as ([b|] & <- & Hb%list_elem_of_In); simpl.
    - apply list_elem_of_lookup in Hb as [i Hi].
      apply resultOf_lookup in Hi as (j & raw & _ & Hraw & ->).
      split; [apply trim_noOuterWhiteSpace|]. apply lineFree_trim.
      rewrite Forall_forall in Hlf. apply Hlf, list_elem_of_lookup. eauto.
    - split; [apply noOuterWhiteSpace_nil|apply lineFree_nil]. }
  split; [by eapply Forall_impl; [exact Hall|intros a []]|].
  split; [by eapply Forall_impl; [exact Hall|intros a []]|].
  simpl. by rewrite encodeArgument_default.
Qed.

Lemma reloadArgs_encoding_shape_witness :
  macroArgs (set_macroArgs (Val (str "{a}{b}"))
               (exampleMacro "\foo" Null "\foo{#1}{#2}" "\foo{ a }{b}")) = Null
  \/ exists args,
       (length args <= 8)%nat
       ∧ Forall noOuterWhiteSpace args
       ∧ Forall lineFree args
       ∧ macroArgs (set_macroArgs (Val (str "{a}{b}"))
                      (exampleMacro "\foo" Null "\foo{#1}{#2}" "\foo{ a }{b}"))
         = Val (encodingOf args).
Proof.
  apply (reloadArgs_encoding_shape LatexBody latexOf
           (exampleMacro "\foo" Null "\foo{#1}{#2}" "\foo{ a }{b}")).
  reflexivity.
Defined.

(** X4.  [reloadArgs()] reads the definition and the body only: it changes
    no field but the argument encoding, gives the same node whatever the
    encoding was before, and a second call without a change of the body
    changes nothing more. *)
Theorem reloadArgs_idempotent
  (Body : Type) (bodyToLatex : Body -> ToLatexOptions -> jsstring)
  (this this' : MacroAtom Body) :
  reloadArgs bodyToLatex this = Return this' ->
  (type this' = type this ∧ command this' = command this ∧ style this' = style this
   ∧ body this' = body this ∧ captureSelection this' = captureSelection this
   ∧ expand this' = expand this ∧ def this' = def this)
  ∧ (forall v, reloadArgs bodyToLatex (set_macroArgs v this) = Return this')
  ∧ reloadArgs bodyToLatex this' = Return this'.
Proof.
  intros H. pose proof H as H0. unfold reloadArgs in H.
  destruct (extractArgumentsWithOrder _ _) as [args|e] eqn:Hx; [|done].
  injection H as <-. split; [done|].
  assert (Hv : forall v, reloadArgs bodyToLatex (set_macroArgs v this)
                         = Return (set_macroArgs
                                     match args with
                                     | Some args => Val (concat (map encodeArgument args))
                                     | None => Null
                                     end this)).
  { intros v. unfold reloadArgs. cbn. by rewrite Hx. }
  split; [done|]. apply Hv.
Qed.

Lemma reloadArgs_idempotent_witness :
  reloadArgs latexOf
    (set_macroArgs (Val (str "{}{ab}")) (exampleMacro "\pair" (Val (str "{a}{b}")) "#1#2" "ab"))
  = Return (set_macroArgs (Val (str "{}{ab}"))
              (exampleMacro "\pair" (Val (str "{a}{b}")) "#1#2" "ab")).
Proof.
  apply (reloadArgs_idempotent LatexBody latexOf
           (exampleMacro "\pair" (Val (str "{a}{b}")) "#1#2" "ab")).
  reflexivity.
Defined.

(** ** The effect of the walk on the heap *)

Section WalkEffect.

Context {Body : Type}.

Local Abbreviation Heap := (gmap AtomRef (TreeAtom Body)).

Variable bodyToLatex : Heap -> Body -> ToLatexOptions -> jsstring.

Lemma sameButArgs_refl (a : TreeAtom Body) : sameButArgs a a.
Proof.
  split; [done|]. destruct (object a) as [this|t]; [|done].
  exists (macroArgs this). by destruct this.
Qed.

Lemma sameButArgs_trans (a b c : TreeAtom Body) :
  sameButArgs a b -> sameButArgs b c -> sameButArgs a c.
Proof.
  intros [Hp1 Ho1] [Hp2 Ho2]. split; [congruence|].
  destruct (object a), (object b), (object c); try done.
  - destruct Ho1 as [v ->], Ho2 as [w ->]. by exists w.
  - congruence.
Qed.

(** One iteration of the loop, read backwards from its outcome. *)
Lemma reloadParentsMacros_inv (fuel : nat) (heap : Heap) (p : AtomRef)
  (calls : list AtomRef) (outcome : Completion Heap) :
  reloadParentsMacros bodyToLatex fuel heap (Some p) = Some (calls, outcome) ->
  exists fuel' a,
    fuel = S fuel' ∧ heap !! p = Some a
    ∧ ((isMacroNode heap p = false
        ∧ reloadParentsMacros bodyToLatex fuel' heap (parent a) = Some (calls, outcome))
       \/ (isMacroNode heap p = true
           ∧ exists this,
               object a = IsMacroAtom this
               ∧ ((reloadArgs (bodyToLatex heap) this = Throw noTemplate
                   ∧ def this = [] ∧ calls = [p] ∧ outcome = Throw noTemplate)
                  \/ (exists v calls',
                        reloadArgs (bodyToLatex heap) this = Return (set_macroArgs v this)
                        ∧ def this <> []
                        ∧ calls = p :: calls'
                        ∧ reloadParentsMacros bodyToLatex fuel'
                            (<[p := {| object := IsMacroAtom (set_macroArgs v this);
                                       parent := parent a |}]> heap)
                            (parent a)
                          = Some (calls', outcome))))).
Proof.
  destruct fuel as [|fuel']; [done|]. cbn [reloadParentsMacros].
  destruct (heap !! p) as [a|] eqn:Hp; [|done]. intros H.
  exists fuel', a. split; [done|]. split; [done|].
  unfold isMacroNode. rewrite Hp.
  destruct (JS.eqb (atomType a) (str "macro") && instanceofMacroAtom a) eqn:Hm;
    [right|by left].
  split; [done|]. destruct (object a) as [this|t] eqn:Ho.
  2:{ unfold instanceofMacroAtom in Hm. rewrite Ho in Hm. by rewrite andb_false_r in Hm. }
  exists this. split; [done|].
  destruct (reloadArgs (bodyToLatex heap) this) as [this'|e] eqn:Hr.
  - right. destruct (reloadArgs_sets_macroArgs _ _ _ Hr) as [v ->].
    destruct (reloadParentsMacros _ _ _ _) as [[calls' r]|] eqn:Hw; [|done].
    injection H as <- <-. exists v, calls'. repeat split; try done.
    intros Hd. assert (reloadArgs (bodyToLatex heap) this = Throw noTemplate) as E;
      [by apply reloadArgs_throw|congruence].
  - left. injection H as <- <-. apply reloadArgs_throw in Hr as [Hd ->].
    repeat split; try done; by apply reloadArgs_throw.
Qed.

(** The calls of a walk are on nodes of the chain. *)
Lemma reloadParentsMacros_calls_in_chain (chain : list AtomRef) (heap : Heap)
  (start : option AtomRef) (fuel : nat) (calls : list AtomRef)
  (outcome : Completion Heap) :
  ancestry heap start chain ->
  reloadParentsMacros bodyToLatex fuel heap start = Some (calls, outcome) ->
  forall p, In p calls -> In p chain.
Proof.
  revert heap start fuel calls. induction chain as [|p0 chain IH];
    intros heap start fuel calls Hchain Hwalk p Hp.
  - inversion Hchain; subst. destruct fuel; simpl in Hwalk; by injection Hwalk as <- <-.
  - inversion Hchain as [|? a chain' Hp0 Hrest]; subst.
    apply reloadParentsMacros_inv in Hwalk
      as (fuel' & a' & -> & Ha' & [[_ Hw]|(_ & this & Ho & [(_ & _ & -> & _)|Hret])]).
    + assert (a' = a) as -> by congruence. right. by eapply IH.
    + destruct Hp as [<-|[]]. by left.
    + destruct Hret as (v & calls' & _ & _ & -> & Hw).
      assert (a' = a) as -> by congruence.
      destruct Hp as [<-|Hp]; [by left|]. right.
      eapply IH; [|exact Hw|done]. by apply ancestry_update.
Qed.

Lemma reloadParentsMacros_frame (fuel : nat) (heap : Heap) (start : option AtomRef)
  (calls : list AtomRef) (heap' : Heap) :
  reloadParentsMacros bodyToLatex fuel heap start = Some (calls, Return heap') ->
  forall p,
    (~ In p calls -> heap' !! p = heap !! p)
    ∧ (heap !! p = None <-> heap' !! p = None)
    ∧ (forall a a', heap !! p = Some a -> heap' !! p = Some a' -> sameButArgs a a').
Proof.
  revert heap start calls. induction fuel as [|fuel IH]; intros heap start calls Hwalk p.
  - destruct start; [done|]. injection Hwalk as <- <-.
    split; [done|]. split; [done|]. intros a a' Ha Ha'.
    assert (a' = a) as -> by congruence. apply sameButArgs_refl.
  - destruct start as [p0|].
    2:{ injection Hwalk as <- <-. split; [done|]. split; [done|]. intros a a' Ha Ha'.
        assert (a' = a) as -> by congruence. apply sameButArgs_refl. }
    apply reloadParentsMacros_inv in Hwalk
      as (fuel' & a0 & [= <-] & Ha0 & [[_ Hw]|(_ & this & Ho & [(_ & _ & _ & ?)|Hret])]);
      [by apply (IH _ _ _ Hw)|done|].
    destruct Hret as (v & calls' & _ & _ & -> & Hw).
    destruct (IH _ _ _ Hw p) as (Hout & Hnone & Hsame).
    destruct (decide (p = p0)) as [->|Hne].
    + rewrite lookup_insert_eq in Hnone, Hsame.
      split; [intros Hno; destruct Hno; by left|]. split.
      * rewrite Ha0. split; [done|]. intros E. by apply Hnone in E.
      * intros a a' Ha Ha'. assert (a = a0) as -> by congruence.
        eapply sameButArgs_trans; [|by eapply Hsame].
        split; [done|]. cbn. rewrite Ho. by exists v.
    + rewrite lookup_insert_ne in Hout, Hnone, Hsame by done.
      split; [|done]. intros Hno. apply Hout. intros Hin. apply Hno. by right.
Qed.

End WalkEffect.

Section WalkTheorems.

Context {Body : Type}.

Local Abbreviation Heap := (gmap AtomRef (TreeAtom Body)).

Variable bodyToLatex : Heap -> Body -> ToLatexOptions -> jsstring.

Lemma sameButArgs_lookup (heap heap' : Heap) (p : AtomRef) (a : TreeAtom Body) :
  (heap !! p = None <-> heap' !! p = None) ->
  (forall a a', heap !! p = Some a -> heap' !! p = Some a' -> sameButArgs a a') ->
  heap !! p = Some a -> exists a', heap' !! p = Some a' ∧ sameButArgs a a'.
Proof.
  intros Hnone Hsame Ha. destruct (heap' !! p) as [a'|] eqn:Ha'.
  - exists a'. split; [done|]. by apply Hsame.
  - assert (heap !! p = None) by (by apply Hnone). congruence.
Qed.

Lemma sameButArgs_isMacro (a a' : TreeAtom Body) :
  sameButArgs a a' ->
  JS.eqb (atomType a') (str "macro") && instanceofMacroAtom a'
  = JS.eqb (atomType a) (str "macro") && instanceofMacroAtom a.
Proof.
  intros [_ Ho]. unfold atomType, instanceofMacroAtom.
  destruct (object a), (object a'); try done.
  - by destruct Ho as [v ->].
  - by subst.
Qed.

End WalkTheorems.

(** X5.  A walk that returns leaves the heap as it was apart from the
    argument encodings of the macro nodes it called: nodes it did not call
    are unchanged, no node appears or disappears, every node keeps its
    parent, its class and its fields other than the encoding, and so the
    ownership chains and the set of macro nodes are the same after the
    walk. *)
Theorem reloadParentsMacros_changes_only_encodings
  (Body : Type)
  (bodyToLatex : gmap AtomRef (TreeAtom Body) -> Body -> ToLatexOptions -> jsstring)
  (fuel : nat) (heap heap' : gmap AtomRef (TreeAtom Body))
  (start : option AtomRef) (calls : list AtomRef) :
  reloadParentsMacros bodyToLatex fuel heap start = Some (calls, Return heap') ->
  (forall p, ~ In p calls -> heap' !! p = heap !! p)
  ∧ (forall p, heap !! p = None <-> heap' !! p = None)
  ∧ (forall p a a', heap !! p = Some a -> heap' !! p = Some a' -> sameButArgs a a')
  ∧ (forall from chain, ancestry heap from chain -> ancestry heap' from chain)
  ∧ (forall p, isMacroNode heap' p = isMacroNode heap p).
Proof.
  intros Hwalk.
  pose proof (reloadParentsMacros_frame bodyToLatex _ _ _ _ _ Hwalk) as Hframe.
  split; [intros p; apply Hframe|]. split; [intros p; apply Hframe|].
  split; [intros p; apply Hframe|]. split.
  - intros from chain. induction 1 as [|p a chain Hp Hrest IH]; [constructor|].
    destruct (Hframe p) as (_ & Hnone & Hsame).
    destruct (sameButArgs_lookup _ _ _ _ Hnone Hsame Hp) as (a' & Ha' & [Hpar _]).
    apply ancestry_up with a'; [done|]. by rewrite Hpar.
  - intros p. unfold isMacroNode. destruct (Hframe p) as (_ & Hnone & Hsame).
    destruct (heap !! p) as [a|] eqn:Hp.
    + destruct (heap' !! p) as [a'|] eqn:Hp'.
      * apply sameButArgs_isMacro. by apply Hsame.
      * discriminate (proj2 Hnone eq_refl).
    + by rewrite (proj1 Hnone eq_refl).
Qed.

Lemma reloadParentsMacros_changes_only_encodings_witness :
  exists heap',
    reloadParentsMacros exampleSerializer 7 exampleTree (Some editedLeaf)
    = Some ([macroB; macroA], Return heap')
    ∧ heap' !! plainNode = exampleTree !! plainNode
    ∧ ancestry heap' (Some editedLeaf) [editedLeaf; macroB; plainNode; macroA; root].
Proof.
  destruct (reloadParentsMacros exampleSerializer 7 exampleTree (Some editedLeaf))
    as [[calls [heap'|e]]|] eqn:Hwalk; try (by vm_compute in Hwalk).
  assert (calls = [macroB; macroA]) as ->.
  { apply (f_equal (fmap fst)) in Hwalk. vm_compute in Hwalk. by injection Hwalk as <-. }
  exists heap'. split; [done|].
  destruct (reloadParentsMacros_changes_only_encodings LatexBody exampleSerializer
              7 exampleTree heap' (Some editedLeaf) [macroB; macroA] Hwalk)
    as (Hout & _ & _ & Hanc & _).
  split.
  - apply Hout. intros [E|[E|[]]]; discriminate.
  - apply Hanc. repeat (eapply ancestry_up; [by vm_compute|]; simpl). constructor.
Defined.

Section WalkCalls.

Context {Body : Type}.

Local Abbreviation Heap := (gmap AtomRef (TreeAtom Body)).

Variable bodyToLatex : Heap -> Body -> ToLatexOptions -> jsstring.

(** Every call of a walk that returns is a [reloadArgs()] on the node as
    it was at the start, run against a heap that differs from the initial
    one at most at the nodes called before; its result is the node that
    the final heap holds. *)
Lemma reloadParentsMacros_call (chain : list AtomRef) (heap : Heap)
  (start : option AtomRef) (fuel : nat) (heap' : Heap)
  (pre : list AtomRef) (p : AtomRef) (post : list AtomRef) :
  ancestry heap start chain ->
  reloadParentsMacros bodyToLatex fuel heap start
  = Some (pre ++ p :: post, Return heap') ->
  exists heap_p a this this',
    (forall q, ~ In q pre -> heap_p !! q = heap !! q)
    ∧ heap !! p = Some a
    ∧ object a = IsMacroAtom this
    ∧ reloadArgs (bodyToLatex heap_p) this = Return this'
    ∧ heap' !! p = Some {| object := IsMacroAtom this'; parent := parent a |}.
Proof.
  revert heap start fuel pre. induction chain as [|p0 chain IH];
    intros heap start fuel pre Hchain Hwalk.
  - inversion Hchain; subst. destruct fuel; simpl in Hwalk;
      injection Hwalk as Hc _; by destruct pre.
  - pose proof (ancestry_NoDup _ _ _ Hchain) as Hnodup.
    inversion Hchain as [|? a0 chain' Hp0 Hrest]; subst.
    apply reloadParentsMacros_inv in Hwalk
      as (fuel' & a' & -> & Ha' & [[_ Hw]|(_ & this & Ho & [(_ & _ & _ & ?)|Hret])]);
      [|done|]; assert (a' = a0) as -> by congruence.
    + by eapply IH.
    + destruct Hret as (v & calls' & Hr & _ & Hcalls & Hw).
      assert (Hanc : ancestry
                (<[p0 := {| object := IsMacroAtom (set_macroArgs v this);
                            parent := parent a0 |}]> heap) (parent a0) chain)
        by by apply ancestry_update.
      assert (Hp0' : ~ In p0 calls').
      { intros Hin. apply NoDup_cons in Hnodup as [Hno _]. apply Hno.
        apply list_elem_of_In.
        by eapply (reloadParentsMacros_calls_in_chain bodyToLatex chain). }
      destruct pre as [|q pre]; simpl in Hcalls.
      * injection Hcalls as -> ->. exists heap, a0, this, (set_macroArgs v this).
        repeat split; try done.
        destruct (reloadParentsMacros_frame bodyToLatex _ _ _ _ _ Hw p0) as (Hout & _).
        by rewrite Hout, lookup_insert_eq.
      * injection Hcalls as -> <-.
        destruct (IH _ _ _ _ Hanc Hw)
          as (heap_p & a & that & that' & Hsame & Ha & Hthat & Hr' & Hfinal).
        assert (p <> p0).
        { intros ->. apply Hp0'. apply in_or_app. right. by left. }
        rewrite lookup_insert_ne in Ha by done.
        exists heap_p, a, that, that'. repeat split; try done.
        intros r Hr0. rewrite Hsame by (intros Hin; apply Hr0; by right).
        apply lookup_insert_ne. intros ->. apply Hr0. by left.
Qed.

(** How a walk ends: with the exception of the matcher at the first macro
    node of the chain that has an empty definition template, and with a
    heap when there is none. *)
Lemma reloadParentsMacros_outcome (chain : list AtomRef) (heap : Heap)
  (start : option AtomRef) (fuel : nat) (calls : list AtomRef)
  (outcome : Completion Heap) :
  ancestry heap start chain ->
  reloadParentsMacros bodyToLatex fuel heap start = Some (calls, outcome) ->
  (forall e, outcome = Throw e ->
     e = noTemplate
     ∧ exists p a this,
         last calls = Some p ∧ In p chain ∧ heap !! p = Some a
         ∧ isMacroNode heap p = true ∧ object a = IsMacroAtom this ∧ def this = [])
  ∧ ((exists p a this,
        In p chain ∧ heap !! p = Some a ∧ isMacroNode heap p = true
        ∧ object a = IsMacroAtom this ∧ def this = [])
     -> outcome = Throw noTemplate).
Proof.
  revert heap start fuel calls. induction chain as [|p0 chain IH];
    intros heap start fuel calls Hchain Hwalk.
  - inversion Hchain; subst.
    assert (outcome = Return heap) as -> by (destruct fuel; simpl in Hwalk; congruence).
    split; [done|]. by intros (p & a & this & [] & _).
  - inversion Hchain as [|? a0 chain' Hp0 Hrest]; subst.
    apply reloadParentsMacros_inv in Hwalk
      as (fuel' & a' & -> & Ha' & [[Hnm Hw]|(Hm & this & Ho & [Hthrow|Hret])]);
      assert (a' = a0) as -> by congruence.
    + destruct (IH _ _ _ _ Hrest Hw) as [H1 H2]. split.
      * intros e He. destruct (H1 e He) as (-> & p & a & that & Hl & Hin & Hrest').
        split; [done|]. exists p, a, that. split; [done|]. split; [by right|done].
      * intros (p & a & that & [<-|Hin] & Ha & Hmp & Hrest'); [congruence|].
        apply H2. eauto 8.
    + destruct Hthrow as (_ & Hd & -> & ->). split; [|done].
      intros e [= <-]. split; [done|]. exists p0, a0, this.
      repeat split; try done. by left.
    + destruct Hret as (v & calls' & _ & Hd & -> & Hw).
      destruct (IH _ _ _ _ (ancestry_update _ _ _ _ _ _ Hp0 Hrest) Hw) as [H1 H2].
      split.
      * intros e He. destruct (H1 e He) as (-> & p & a & that & Hl & Hin & Ha & Hmp & Hthat & Hempty).
        split; [done|].
        destruct (decide (p0 = p)) as [->|Hne].
        { rewrite lookup_insert_eq in Ha. injection Ha as <-. simpl in Hthat.
          injection Hthat as <-. done. }
        rewrite lookup_insert_ne in Ha by done.
        rewrite (isMacroNode_update heap p0 a0 this v p Hp0 Ho) in Hmp.
        exists p, a, that. split.
        { destruct calls'; [done|]. done. }
        split; [by right|done].
      * intros (p & a & that & Hin & Ha & Hmp & Hthat & Hempty).
        destruct (decide (p0 = p)) as [->|Hne]; [congruence|].
        destruct Hin as [?|Hin]; [done|]. apply H2.
        exists p, a, that. rewrite lookup_insert_ne by done.
        by rewrite (isMacroNode_update heap p0 a0 this v p Hp0 Ho).
Qed.

End WalkCalls.

(** X6.  In a walk that returns, every call is a [reloadArgs()] on the
    node as the initial heap holds it, run against a heap that differs
    from the initial one at most at the nodes called before (for the
    nearest macro node, against the initial heap itself), and the final
    heap holds its result, which no later call overwrites.  In particular
    a macro node whose body no longer matches its definition ends with the
    encoding [null]. *)
Theorem reloadParentsMacros_reloads_called_nodes
  (Body : Type)
  (bodyToLatex : gmap AtomRef (TreeAtom Body) -> Body -> ToLatexOptions -> jsstring)
  (chain : list AtomRef) (heap heap' : gmap AtomRef (TreeAtom Body))
  (start : option AtomRef) (fuel : nat)
  (pre : list AtomRef) (p : AtomRef) (post : list AtomRef) :
  ancestry heap start chain ->
  reloadParentsMacros bodyToLatex fuel heap start
  = Some (pre ++ p :: post, Return heap') ->
  exists heap_p a this this',
    (forall q, ~ In q pre -> heap_p !! q = heap !! q)
    ∧ (pre = [] -> heap_p = heap)
    ∧ heap !! p = Some a
    ∧ object a = IsMacroAtom this
    ∧ reloadArgs (bodyToLatex heap_p) this = Return this'
    ∧ heap' !! p = Some {| object := IsMacroAtom this'; parent := parent a |}
    ∧ (extractArgumentsWithOrder (def this)
         (bodyToLatex heap_p (body this) reloadArgsOptions) = Return None ->
       macroArgs this' = Null).
Proof.
  intros Hchain Hwalk.
  destruct (reloadParentsMacros_call bodyToLatex chain heap start fuel heap'
              pre p post Hchain Hwalk)
    as (heap_p & a & this & this' & Hsame & Ha & Ho & Hr & Hfinal).
  exists heap_p, a, this, this'. split; [done|]. split.
  { intros ->. apply map_eq. intros q. apply Hsame. intros []. }
  repeat split; try done.
  intros Hno. rewrite (reloadArgs_no_match _ _ Hno) in Hr. by injection Hr as <-.
Qed.

Lemma reloadParentsMacros_reloads_called_nodes_witness :
  exists heap' heap_p a this this',
    reloadParentsMacros exampleSerializer 7 exampleTree (Some editedLeaf)
    = Some ([macroB] ++ macroA :: [], Return heap')
    ∧ (forall q, ~ In q [macroB] -> heap_p !! q = exampleTree !! q)
    ∧ exampleTree !! macroA = Some a
    ∧ object a = IsMacroAtom this
    ∧ reloadArgs (exampleSerializer heap_p) this = Return this'
    ∧ heap' !! macroA = Some {| object := IsMacroAtom this'; parent := parent a |}.
Proof.
  destruct (reloadParentsMacros exampleSerializer 7 exampleTree (Some editedLeaf))
    as [[calls [heap'|e]]|] eqn:Hwalk; try (by vm_compute in Hwalk).
  assert (calls = [macroB] ++ macroA :: []) as ->.
  { apply (f_equal (fmap fst)) in Hwalk. vm_compute in Hwalk. by injection Hwalk as <-. }
  destruct (reloadParentsMacros_reloads_called_nodes LatexBody exampleSerializer
              [editedLeaf; macroB; plainNode; macroA; root] exampleTree heap'
              (Some editedLeaf) 7 [macroB] macroA [])
    as (heap_p & a & this & this' & H1 & _ & H2 & H3 & H4 & H5 & _); [|done|].
  { repeat (eapply ancestry_up; [by vm_compute|]; simpl). constructor. }
  exists heap', heap_p, a, this, this'. done.
Defined.

(** X7.  A walk up a chain that reaches the root ends within as many
    iterations as the chain is long.  It throws exactly when a macro node
    of the chain has an empty definition template; the exception is then
    that of the matcher, raised by the nearest such node, which is the last
    node called: the macro nodes above it are not reconciled. *)
Theorem reloadParentsMacros_throws_at_empty_template
  (Body : Type)
  (bodyToLatex : gmap AtomRef (TreeAtom Body) -> Body -> ToLatexOptions -> jsstring)
  (chain : list AtomRef) (heap : gmap AtomRef (TreeAtom Body))
  (start : option AtomRef) (fuel : nat) :
  ancestry heap start chain -> (length chain <= fuel)%nat ->
  exists calls outcome,
    reloadParentsMacros bodyToLatex fuel heap start = Some (calls, outcome)
    ∧ (forall e, outcome = Throw e ->
         e = noTemplate
         ∧ exists p a this,
             last calls = Some p ∧ In p chain ∧ heap !! p = Some a
             ∧ isMacroNode heap p = true ∧ object a = IsMacroAtom this
             ∧ def this = [])
    ∧ ((exists p a this,
          In p chain ∧ heap !! p = Some a ∧ isMacroNode heap p = true
          ∧ object a = IsMacroAtom this ∧ def this = [])
       -> outcome = Throw noTemplate).
Proof.
  intros Hchain Hfuel.
  destruct (reloadParentsMacros_calls bodyToLatex heap start chain fuel Hchain Hfuel)
    as (calls & outcome & Hwalk & _).
  exists calls, outcome. split; [done|].
  by apply (reloadParentsMacros_outcome bodyToLatex chain heap start fuel).
Qed.

Lemma reloadParentsMacros_throws_at_empty_template_witness :
  exists calls outcome,
    reloadParentsMacros exampleSerializer 4 brokenTree (Some editedLeaf)
    = Some (calls, outcome)
    ∧ (forall e, outcome = Throw e ->
         e = noTemplate
         ∧ exists p a this,
             last calls = Some p ∧ In p [editedLeaf; macroB; macroA; root]
             ∧ brokenTree !! p = Some a
             ∧ isMacroNode brokenTree p = true ∧ object a = IsMacroAtom this
             ∧ def this = [])
    ∧ ((exists p a this,
          In p [editedLeaf; macroB; macroA; root] ∧ brokenTree !! p = Some a
          ∧ isMacroNode brokenTree p = true
          ∧ object a = IsMacroAtom this ∧ def this = [])
       -> outcome = Throw noTemplate).
Proof.
  apply (reloadParentsMacros_throws_at_empty_template LatexBody exampleSerializer
           [editedLeaf; macroB; macroA; root] brokenTree (Some editedLeaf) 4).
  - repeat (eapply ancestry_up; [by vm_compute|]; simpl). constructor.
  - simpl. lia.
Defined.

(** ** Absent encodings, snapshots and styles *)

Lemma equivalentNodes_set_macroArgs {Body : Type} (a b : MacroAtom Body)
  (v : Nullable jsstring) :
  equivalentNodes a b -> set_macroArgs v a = set_macroArgs v b.
Proof.
  intros (? & ? & ? & ? & ? & ? & ? & _). destruct a, b; simpl in *. by subst.
Qed.

Lemma equivalentNodes_args {Body : Type} (a b : MacroAtom Body) :
  equivalentNodes a b ->
  (if truthy (macroArgs a) then macroArgs a else Undefined)
  = (if truthy (macroArgs b) then macroArgs b else Undefined).
Proof.
  intros (_ & _ & _ & _ & _ & _ & _ & H).
  destruct (macroArgs a) as [| |[|x s]], (macroArgs b) as [| |[|y t]];
    simpl in *; congruence.
Qed.

(** X8.  The class treats an absent argument encoding alike whether it is
    [undefined], [null] or the empty string: two nodes that differ only in
    this have the same snapshot, the same serialization and the same
    reconciliation, and the constructor gives them the same
    [captureSelection] default. *)
Theorem absent_encodings_indistinguishable
  (Body : Type) (bodyToLatex : Body -> ToLatexOptions -> jsstring)
  (a b : MacroAtom Body) :
  equivalentNodes a b ->
  toJson a = toJson b
  ∧ (forall options, _serialize bodyToLatex a options = _serialize bodyToLatex b options)
  ∧ reloadArgs bodyToLatex a = reloadArgs bodyToLatex b
  ∧ (forall macro (o o' : MacroOptions Body),
       opt_expand o = opt_expand o' -> opt_body o = opt_body o' ->
       opt_captureSelection o = opt_captureSelection o' ->
       opt_style o = opt_style o' -> opt_def o = opt_def o' ->
       nullish (opt_args o) [] = nullish (opt_args o') [] ->
       equivalentNodes (new_MacroAtom macro o) (new_MacroAtom macro o')).
Proof.
  intros Heq. pose proof Heq as (Ht & Hc & Hs & Hb & Hcs & He & Hd & Hn).
  split; [|split; [|split]].
  - rewrite !toJson_fields. rewrite (equivalentNodes_args a b Heq).
    by rewrite Ht, Hc, Hs, Hb, Hcs, He, Hd.
  - intros options. unfold _serialize. by rewrite He, Hb, Hc, Hn.
  - unfold reloadArgs. rewrite Hd, Hb.
    destruct (extractArgumentsWithOrder _ _); [|done].
    by rewrite (equivalentNodes_set_macroArgs a b _ Heq).
  - intros macro o o' He' Hb' Hc' Hs' Hd' Hn'. unfold equivalentNodes, new_MacroAtom.
    cbn. rewrite He', Hb', Hc', Hs', Hd'. repeat split; [|done].
    destruct (opt_captureSelection o'); [done|].
    destruct (opt_args o) as [| |[|x s]], (opt_args o') as [| |[|y t]];
      simpl in *; congruence.
Qed.

Lemma absent_encodings_indistinguishable_witness :
  toJson (exampleMacro "\k" Null "constant" "constant")
  = toJson (set_macroArgs (Val []) (exampleMacro "\k" Null "constant" "constant")).
Proof.
  apply (absent_encodings_indistinguishable LatexBody latexOf
           (exampleMacro "\k" Null "constant" "constant")
           (set_macroArgs (Val []) (exampleMacro "\k" Null "constant" "constant"))).
  by repeat split.
Defined.

Lemma fromJson_toJson {Body : Type} (this : MacroAtom Body) (b : bool) :
  type this = str "macro" -> captureSelection this = Some b ->
  fromJson (toJson this)
  = Some (set_macroArgs (if truthy (macroArgs this) then macroArgs this else Undefined)
            this).
Proof.
  intros Ht Hc. rewrite toJson_fields. unfold fromJson, new_MacroAtom, set_macroArgs.
  cbn. rewrite Hc, Ht. do 2 f_equal. by destruct (expand this).
Qed.

(** X9.  A snapshot taken after a reconciliation restores the node: the
    node rebuilt by [fromJson] is equivalent to the reconciled one, has the
    [captureSelection] fixed at construction, not a default derived anew
    from the reconciled encoding, and has the same snapshot. *)
Theorem snapshot_round_trip_after_reloadArgs
  (Body : Type) (bodyToLatex : Body -> ToLatexOptions -> jsstring)
  (macro : jsstring) (options : MacroOptions Body) (this' : MacroAtom Body) :
  reloadArgs bodyToLatex (new_MacroAtom macro options) = Return this' ->
  exists this'',
    fromJson (toJson this') = Some this''
    ∧ equivalentNodes this' this''
    ∧ captureSelection this'' = captureSelection (new_MacroAtom macro options)
    ∧ toJson this'' = toJson this'.
Proof.
  intros H. apply reloadArgs_sets_macroArgs in H as [v ->].
  pose proof (new_MacroAtom_captureSelection macro options) as Hcs.
  eexists. split.
  { apply fromJson_toJson with (b := match opt_captureSelection options with
                                     | Some b => b
                                     | None => negb (truthy (opt_args options))
                                     end); [done|exact Hcs]. }
  assert (Heq : equivalentNodes (set_macroArgs v (new_MacroAtom macro options))
                  (set_macroArgs
                     (if truthy (macroArgs (set_macroArgs v (new_MacroAtom macro options)))
                      then macroArgs (set_macroArgs v (new_MacroAtom macro options))
                      else Undefined)
                     (set_macroArgs v (new_MacroAtom macro options)))).
  { repeat split. by destruct v as [| |[|x s]]. }
  split; [done|]. split; [done|].
  rewrite !toJson_fields. by destruct v as [| |[|x s]].
Qed.

Lemma snapshot_round_trip_after_reloadArgs_witness :
  exists this'',
    fromJson (toJson (set_macroArgs (Val (str "{a}{b}"))
                        (exampleMacro "\foo" Null "\foo{#1}{#2}" "\foo{ a }{b}")))
    = Some this''
    ∧ equivalentNodes
        (set_macroArgs (Val (str "{a}{b}"))
           (exampleMacro "\foo" Null "\foo{#1}{#2}" "\foo{ a }{b}")) this''
    ∧ captureSelection this''
      = captureSelection (exampleMacro "\foo" Null "\foo{#1}{#2}" "\foo{ a }{b}")
    ∧ toJson this''
      = toJson (set_macroArgs (Val (str "{a}{b}"))
                  (exampleMacro "\foo" Null "\foo{#1}{#2}" "\foo{ a }{b}")).
Proof.
  apply (snapshot_round_trip_after_reloadArgs LatexBody latexOf (str "\foo")
           {| opt_expand := None; opt_args := Null; opt_body := str "\foo{ a }{b}";
              opt_captureSelection := None; opt_style := ∅;
              opt_def := str "\foo{#1}{#2}" |}).
  reflexivity.
Defined.

Lemma allowedStyle_lookup (style : Style) (k : string) :
  allowedStyle style !! k
  = if decide (k = "color"%string \/ k = "backgroundColor"%string)
    then match style !! k with
         | Some v => if styleTruthy v then Some v else None
         | None => None
         end
    else None.
Proof.
  unfold allowedStyle. rewrite !copyIfTruthy_lookup, lookup_empty.
  destruct (decide (k = "color"%string \/ k = "backgroundColor"%string)) as [[->| ->]|Hk].
  - rewrite decide_False by done. rewrite decide_True by done.
    destruct (style !! "color"%string) as [v|]; [|done]. by destruct (styleTruthy v).
  - rewrite decide_True by done.
    destruct (style !! "backgroundColor"%string) as [v|]; [|done].
    destruct (styleTruthy v); [done|]. by rewrite decide_False.
  - rewrite !decide_False; [done|tauto|tauto].
Qed.

(** X10.  The style that [applyStyle] hands on is a part of the given style,
    and filtering is idempotent: applying it to an already filtered style
    changes nothing, so that a style passed through [applyStyle] twice
    reaches the generic routine as after one pass. *)
Theorem allowedStyle_idempotent (style : Style) :
  allowedStyle style ⊆ style
  ∧ allowedStyle (allowedStyle style) = allowedStyle style
  ∧ (forall (Body : Type)
       (Atom_applyStyle : MacroAtom Body -> Style -> option bool -> MacroAtom Body)
       (this : MacroAtom Body) (options : option bool),
       applyStyle Atom_applyStyle this (allowedStyle style) options
       = applyStyle Atom_applyStyle this style options).
Proof.
  assert (Hid : allowedStyle (allowedStyle style) = allowedStyle style).
  { apply map_eq. intros k. rewrite (allowedStyle_lookup (allowedStyle style)).
    rewrite !allowedStyle_lookup. case_decide; [|done].
    destruct (style !! k) as [v|]; [|done].
    destruct (styleTruthy v) eqn:Hv; [|done]. by rewrite Hv. }
  split; [|split; [done|]].
  - apply map_subseteq_spec. intros k v. rewrite allowedStyle_lookup.
    case_decide; [|done]. destruct (style !! k) as [w|]; [|done].
    by destruct (styleTruthy w).
  - intros Body Atom_applyStyle this options. unfold applyStyle. by rewrite Hid.
Qed.

(** ** Recovery of the arguments up to trimming *)

Lemma argument_lineFree (args : list jsstring) (d : nat) :
  Forall lineFree args -> lineFree (argument args d).
Proof.
  intros Hargs. unfold argument.
  destruct (nth_in_or_default (pred d) args []) as [Hin| ->]; [|apply lineFree_nil].
  rewrite Forall_forall in Hargs. apply Hargs. by apply list_elem_of_In.
Qed.

Lemma match_pieces_lineFree (args : list jsstring) (pieces : list (nat * jsstring))
  (b : bool) :
  Forall lineFree args -> separated args pieces ->
  matchTerms (piecesTerms pieces ++ [AssertEnd]) b
    (concat (map (fun p => argument args (fst p) ++ snd p) pieces))
  = Some (map (fun p => argument args (fst p)) pieces).
Proof.
  intros Hargs. revert b. induction pieces as [|[d text] rest IH]; intros b Hsep; [done|].
  destruct Hsep as [Hhere Hsep]. specialize (IH false Hsep).
  rewrite piecesTerms_cons. cbn [map concat fst snd].
  rewrite <- !app_assoc. cbn [app matchTerms].
  rewrite (lazyGroup_capture _ (argument args d) _
             (map (fun p => argument args (fst p)) rest)); [done| | |].
  - by apply argument_lineFree.
  - intros a1 x a2 b' Ha. destruct rest as [|q rest'].
    + cbn [piecesTerms map concat app]. rewrite app_nil_r, matchTerms_exact.
      rewrite decide_False; [done|]. intros E.
      apply (f_equal length) in E. rewrite length_cons, !length_app in E. lia.
    + cbn [fst snd] in Hhere. destruct text as [|c text']; [done|].
      cbn [map app matchTerms]. destruct (N.eqb_spec c x) as [->|]; [|done].
      destruct Hhere. rewrite Ha. apply in_or_app. right. by left.
  - intros b'. rewrite <- app_assoc.
    rewrite matchTerms_literal by apply anchorFree_pieces. apply IH.
Qed.

Section RecoveryUpToTrim.

Variables (args : list jsstring) (lead : jsstring) (pieces : list (nat * jsstring)).

Hypothesis args_few : (length args <= 8)%nat.
Hypothesis numbers : forall d, In d (map fst pieces) <-> (1 <= d <= length args)%nat.
Hypothesis lead_plain : ~ In hash lead.
Hypothesis pieces_plain : Forall plainPiece pieces.

Lemma readSlot_templateOf_trim (i : nat) :
  readSlot
    (fillOutput (map placeholderName (placeholderMatches (templateOf lead pieces))) 0
       (map (fun p => argument args (fst p)) pieces) ∅)
    (slotName i)
  = if decide (i < length args)%nat then Some (trim (nth i args [])) else None.
Proof using args_few numbers lead_plain pieces_plain.
  rewrite readSlot_fillOutput, (placeholders_templateOf args) by done.
  rewrite slotName_digitChar.
  destruct (lastIndexOf _ _) as [j|] eqn:Hj.
  - apply lastIndexOf_Some in Hj. rewrite list_lookup_fmap in Hj.
    destruct (pieces !! j) as [p|] eqn:Hp; [|done].
    cbn [fmap option_fmap option_map] in Hj.
    apply placeholderName_digitChar_inj in Hj.
    rewrite list_lookup_fmap, Hp. simpl. rewrite Hj. unfold argument. simpl.
    assert (In (S i) (map fst pieces)) as Hd%numbers.
    { rewrite <- Hj. apply in_map. apply list_elem_of_In, list_elem_of_lookup. eauto. }
    by rewrite decide_True by lia.
  - apply lastIndexOf_None in Hj. rewrite decide_False; [done|]. intros Hi.
    apply Hj. apply in_map_iff.
    assert (In (S i) (map fst pieces)) as Hd by (apply numbers; lia).
    apply in_map_iff in Hd as (p & Hp1 & Hp2). exists p. by rewrite Hp1.
Qed.

Lemma resultOf_templateOf_trim :
  resultOf (templateOf lead pieces) (map (fun p => argument args (fst p)) pieces)
  = map Some (map trim args).
Proof using args_few numbers lead_plain pieces_plain.
  unfold resultOf.
  rewrite <- (popUndefined_defined (map trim args) (8 - length args)). f_equal.
  apply list_eq. intros i. rewrite list_lookup_fmap.
  destruct (decide (i < 8)%nat) as [Hi|Hi].
  - rewrite lookup_seq_lt by done. simpl. rewrite readSlot_templateOf_trim.
    case_decide as Hk.
    + rewrite lookup_app_l by (rewrite !length_map; lia).
      rewrite !list_lookup_fmap.
      destruct (lookup_lt_is_Some_2 args i Hk) as [x Hx].
      by rewrite Hx, (nth_lookup_Some _ _ _ _ Hx).
    + rewrite lookup_app_r by (rewrite !length_map; lia).
      symmetry. apply lookup_replicate_2. rewrite !length_map. lia.
  - rewrite lookup_seq_ge by lia. symmetry. apply lookup_ge_None.
    rewrite length_app, !length_map, length_replicate. lia.
Qed.

Lemma extract_expansion_trim :
  Forall lineFree args -> separated args pieces ->
  expansionOf args lead pieces <> [] ->
  extractArgumentsWithOrder (templateOf lead pieces) (expansionOf args lead pieces)
  = Return (Some (map Some (map trim args))).
Proof using All.
  intros Hlf Hsep Hbody.
  assert (Ht : templateOf lead pieces <> []).
  { intros E. apply Hbody. unfold templateOf, expansionOf in *.
    apply app_eq_nil in E as [-> E]. destruct pieces; [done|discriminate]. }
  rewrite extract_unfold, regexBody_templateOf by (done || by apply (pieces_digits args)).
  unfold expansionOf.
  rewrite matchTerms_literal by apply anchorFree_pieces.
  rewrite match_pieces_lineFree by done. by rewrite resultOf_templateOf_trim.
Qed.

End RecoveryUpToTrim.

(** X11.  For a template whose placeholders are single digits numbered 1
    to k (k at most 8) and separated as the round trip of the encoding
    requires, the matcher applied to the expansion of the template with
    arguments free of line terminators returns these arguments, each
    trimmed; [reloadArgs()] then sets the encoding to the trimmed
    arguments between braces, whatever white space the arguments had at
    their ends and whatever the encoding was before: this string is what
    the node's argument encoding reads after the call. *)
Theorem reloadArgs_recovers_trimmed_arguments
  (Body : Type) (bodyToLatex : Body -> ToLatexOptions -> jsstring)
  (this : MacroAtom Body)
  (lead : jsstring) (pieces : list (nat * jsstring)) (args : list jsstring) :
  (length args <= 8)%nat ->
  (forall d, In d (map fst pieces) <-> (1 <= d <= length args)%nat) ->
  ~ In hash lead ->
  Forall plainPiece pieces ->
  Forall lineFree args ->
  separated args pieces ->
  def this = templateOf lead pieces ->
  bodyToLatex (body this) reloadArgsOptions = expansionOf args lead pieces ->
  expansionOf args lead pieces <> [] ->
  extractArgumentsWithOrder (templateOf lead pieces) (expansionOf args lead pieces)
  = Return (Some (map Some (map trim args)))
  ∧ reloadArgs bodyToLatex this
    = Return (set_macroArgs (Val (encodingOf (map trim args))) this)
  ∧ (exists this',
       reloadArgs bodyToLatex this = Return this'
       ∧ macroArgs this' = Val (encodingOf (map trim args))).
Proof.
  intros Hfew Hnum Hlead Hplain Hlf Hsep Hdef Hbody Hne.
  pose proof (extract_expansion_trim args lead pieces Hfew Hnum Hlead Hplain Hlf Hsep Hne)
    as Hx.
  split; [done|].
  assert (Hcall : reloadArgs bodyToLatex this
                  = Return (set_macroArgs (Val (encodingOf (map trim args))) this)).
  { rewrite (reloadArgs_match bodyToLatex _ (map Some (map trim args))).
    - by rewrite encodeArgument_defined.
    - by rewrite Hdef, Hbody. }
  split; [done|]. eexists. split; [exact Hcall|reflexivity].
Qed.

Lemma reloadArgs_recovers_trimmed_arguments_witness :
  extractArgumentsWithOrder (templateOf (str "\frac{") [(1%nat, str "}{"); (2%nat, str "}")])
    (expansionOf [str " a "; str "b+c "] (str "\frac{") [(1%nat, str "}{"); (2%nat, str "}")])
  = Return (Some (map Some (map trim [str " a "; str "b+c "])))
  ∧ reloadArgs latexOf (exampleMacro "\foo" Null "\frac{#1}{#2}" "\frac{ a }{b+c }")
    = Return (set_macroArgs (Val (encodingOf (map trim [str " a "; str "b+c "])))
                (exampleMacro "\foo" Null "\frac{#1}{#2}" "\frac{ a }{b+c }"))
  ∧ (exists this',
       reloadArgs latexOf (exampleMacro "\foo" Null "\frac{#1}{#2}" "\frac{ a }{b+c }")
       = Return this'
       ∧ macroArgs this' = Val (encodingOf (map trim [str " a "; str "b+c "]))).
Proof.
  apply (reloadArgs_recovers_trimmed_arguments LatexBody latexOf
           (exampleMacro "\foo" Null "\frac{#1}{#2}" "\frac{ a }{b+c }")
           (str "\frac{") [(1%nat, str "}{"); (2%nat, str "}")]
           [str " a "; str "b+c "]).
  - simpl. lia.
  - intros d. simpl. lia.
  - intros H%list_elem_of_In%inb_true. by vm_compute in H.
  - repeat constructor; try (intros H%list_elem_of_In%inb_true; by vm_compute in H);
      intros c [= <-]; reflexivity.
  - repeat constructor.
  - split; [|done]. intros H%list_elem_of_In%inb_true. by vm_compute in H.
  - reflexivity.
  - reflexivity.
  - discriminate.
Defined.

(** ** Templates with one placeholder *)

Lemma fillCaptures_literal (l : jsstring) (ts : list Term) (caps : list jsstring) :
  fillCaptures (map PatternChar l ++ ts) caps = l ++ fillCaptures ts caps.
Proof. induction l as [|c l IH]; [done|]. cbn [map app fillCaptures]. by rewrite IH. Qed.

Lemma templateOf_single (lead tail : jsstring) :
  templateOf lead [(1%nat, tail)] = lead ++ str "#1" ++ tail.
Proof. unfold templateOf. cbn [map concat fst snd]. by rewrite app_nil_r. Qed.

Lemma expansionOf_single (a lead tail : jsstring) :
  expansionOf [a] lead [(1%nat, tail)] = lead ++ a ++ tail.
Proof.
  unfold expansionOf, argument. cbn [map concat fst snd pred nth].
  by rewrite app_nil_r.
Qed.

Lemma single_numbers (a : jsstring) (tail : jsstring) (d : nat) :
  In d (map fst [(1%nat, tail)]) <-> (1 <= d <= length [a])%nat.
Proof. simpl. lia. Qed.

Lemma single_plain (tail : jsstring) :
  ~ In hash tail -> (forall c, head tail = Some c -> isDigit c = false) ->
  Forall plainPiece [(1%nat, tail)].
Proof. intros H1 H2. by repeat constructor. Qed.

(** X12.  For a template with the single placeholder [#1], between texts
    without [#] of which the second does not begin with a digit, the
    matcher succeeds on a non-empty body exactly when the body is the first
    text, then a text without line terminator, then the second text; it
    returns this middle text, trimmed, as the only argument, and [null] on
    every other body. *)
Theorem single_placeholder_match
  (lead tail body : jsstring) (result : list (option jsstring)) :
  ~ In hash lead -> ~ In hash tail ->
  (forall c, head tail = Some c -> isDigit c = false) ->
  body <> [] ->
  (extractArgumentsWithOrder (lead ++ str "#1" ++ tail) body = Return (Some result)
   <-> exists a, body = lead ++ a ++ tail ∧ lineFree a ∧ result = [Some (trim a)])
  ∧ (extractArgumentsWithOrder (lead ++ str "#1" ++ tail) body = Return None
     <-> ~ exists a, body = lead ++ a ++ tail ∧ lineFree a).
Proof.
  intros Hlead Htail Hhead Hbody. rewrite <- templateOf_single.
  pose proof (single_plain tail Htail Hhead) as Hplain.
  assert (Hfwd : forall r,
            extractArgumentsWithOrder (templateOf lead [(1%nat, tail)]) body
            = Return (Some r) ->
            exists a, body = lead ++ a ++ tail ∧ lineFree a ∧ r = [Some (trim a)]).
  { intros r H. apply extract_match_inv in H as (_ & _ & caps & Hexec & ->).
    pose proof (exec_length _ _ _ Hexec) as Hlen.
    rewrite placeholderMatches_templateOf in Hlen
      by (done || (repeat constructor; simpl; lia)).
    destruct caps as [|a [|]]; try done.
    rewrite exec_regexOf in Hexec.
    apply matchTerms_sound in Hexec as (rest & Hs & Hlf & Hend).
    rewrite regexBody_templateOf in Hs, Hend by (done || (repeat constructor; simpl; lia)).
    rewrite Hend in Hs by (by rewrite app_assoc, last_snoc).
    rewrite app_nil_r, fillCaptures_literal in Hs.
    exists a. split.
    { rewrite Hs. f_equal. cbn [piecesTerms map concat snd app fillCaptures].
      f_equal. rewrite app_nil_r, fillCaptures_literal. cbn. apply app_nil_r. }
    split; [by inversion Hlf|].
    apply (resultOf_templateOf_trim [a] lead [(1%nat, tail)]);
      [simpl; lia|apply single_numbers|done|done]. }
  assert (Hbwd : forall a, body = lead ++ a ++ tail -> lineFree a ->
            extractArgumentsWithOrder (templateOf lead [(1%nat, tail)]) body
            = Return (Some [Some (trim a)])).
  { intros a Ha Hlf. rewrite <- (expansionOf_single a lead tail) in Ha. rewrite Ha.
    apply (extract_expansion_trim [a] lead [(1%nat, tail)]);
      [simpl; lia|apply single_numbers|done|done|by repeat constructor|done|].
    intros E. apply Hbody. exact (eq_trans Ha E). }
  split.
  - split; [apply Hfwd|]. intros (a & Ha & Hlf & ->). by apply Hbwd.
  - split.
    + intros Hnone (a & Ha & Hlf). rewrite (Hbwd a Ha Hlf) in Hnone. done.
    + intros Hno.
      assert (Hne : templateOf lead [(1%nat, tail)] <> []).
      { rewrite templateOf_single. intros E. apply app_eq_nil in E as [_ E]. done. }
      destruct (extract_returns (templateOf lead [(1%nat, tail)]) body Hne) as [[r|] Hr];
        [|done].
      destruct Hno. destruct (Hfwd r Hr) as (a & Ha & Hlf & _). eauto.
Qed.

Lemma single_placeholder_match_witness :
  (extractArgumentsWithOrder (str "\sqrt{" ++ str "#1" ++ str "}") (str "\sqrt{ x+1}")
   = Return (Some [Some (str "x+1")])
   <-> exists a, str "\sqrt{ x+1}" = str "\sqrt{" ++ a ++ str "}" ∧ lineFree a
                 ∧ [Some (str "x+1")] = [Some (trim a)])
  ∧ (extractArgumentsWithOrder (str "\sqrt{" ++ str "#1" ++ str "}") (str "\sqrt{ x+1}")
     = Return None
     <-> ~ exists a, str "\sqrt{ x+1}" = str "\sqrt{" ++ a ++ str "}" ∧ lineFree a).
Proof.
  apply (single_placeholder_match (str "\sqrt{") (str "}") (str "\sqrt{ x+1}")
           [Some (str "x+1")]).
  - intros H%list_elem_of_In%inb_true. by vm_compute in H.
  - intros H%list_elem_of_In%inb_true. by vm_compute in H.
  - intros c [= <-]. reflexivity.
  - discriminate.
Defined.

(** ** Completeness of the match, and the split it chooses *)

Lemma literalsAndGroups_app (xs ys : list Term) :
  literalsAndGroups (xs ++ ys) = literalsAndGroups xs && literalsAndGroups ys.
Proof. apply forallb_app. Qed.

Lemma literalsAndGroups_terms (segs : list Segment) :
  literalsAndGroups (terms segs) = true.
Proof.
  induction segs as [|seg segs IH]; [done|].
  change (terms (seg :: segs)) with (termsOf seg ++ terms segs).
  rewrite literalsAndGroups_app, IH. destruct seg as [ds| |]; simpl; [|done..].
  induction ds; [done|]. simpl in *. done.
Qed.

Lemma fillCaptures_end (ts : list Term) (caps : list jsstring) :
  fillCaptures (ts ++ [AssertEnd]) caps = fillCaptures ts caps.
Proof.
  revert caps. induction ts as [|t ts IH]; intros caps; [done|].
  destruct t; cbn [app fillCaptures]; try by rewrite IH.
  destruct caps; by rewrite IH.
Qed.

(** A lazy group finds a match when the input begins with a text it can
    take and the rest of the pattern matches what follows. *)
Lemma lazyGroup_complete (k : bool -> jsstring -> option (list jsstring))
  (acc : jsstring) (b : bool) (a s : jsstring) :
  lineFree a -> (forall b', is_Some (k b' s)) ->
  is_Some (lazyGroup k acc b (a ++ s)).
Proof.
  intros Ha Hk. revert acc b Ha. induction a as [|x a IH]; intros acc b Ha.
  - rewrite lazyGroup_unfold. cbn [app]. destruct (Hk b) as [c ->]. eauto.
  - rewrite lazyGroup_unfold. cbn [app].
    destruct (k b (x :: a ++ s)); [eauto|].
    unfold lineFree in Ha. cbn [forallb] in Ha. apply andb_true_iff in Ha as [Hx Ha].
    apply negb_true_iff in Hx. rewrite Hx. by apply IH.
Qed.

(** The backtracking search is complete: an input that the pattern spells
    with line-free texts in its groups is matched. *)
Lemma matchTerms_complete (ts : list Term) (caps : list jsstring) (b : bool) :
  literalsAndGroups ts = true ->
  length caps = countGroups ts -> Forall lineFree caps ->
  is_Some (matchTerms (ts ++ [AssertEnd]) b (fillCaptures ts caps)).
Proof.
  revert caps b. induction ts as [|t ts IH]; intros caps b Hts Hlen Hlf.
  - simpl. eauto.
  - simpl in Hts. apply andb_true_iff in Hts as [Ht Hts].
    destruct t; try done; cbn [app matchTerms fillCaptures].
    + rewrite N.eqb_refl. by apply IH.
    + destruct caps as [|a caps]; [done|].
      apply Forall_cons in Hlf as [Ha Hlf]. simpl in Hlen.
      apply lazyGroup_complete; [done|]. intros b'. apply IH; [done|lia|done].
Qed.

(** A lazy group takes the shortest text after which the rest of the
    pattern matches. *)
Lemma lazyGroup_minimal (k : bool -> jsstring -> option (list jsstring))
  (acc : jsstring) (b : bool) (s : jsstring) (caps : list jsstring) :
  lazyGroup k acc b s = Some caps ->
  exists a s' caps' b',
    s = a ++ s' ∧ caps = (rev acc ++ a) :: caps' ∧ k b' s' = Some caps'
    ∧ forall a1 x a2, a = a1 ++ x :: a2 -> exists b1, k b1 (x :: a2 ++ s') = None.
Proof.
  revert acc b. induction s as [|x s IH]; intros acc b; rewrite lazyGroup_unfold.
  - destruct (k b []) as [c|] eqn:Hk; [|done]. intros [= <-].
    exists [], [], c, b. rewrite !app_nil_r. split; [done|]. split; [done|].
    split; [done|]. intros [|] ? ? [=].
  - destruct (k b (x :: s)) as [c|] eqn:Hk.
    + intros [= <-]. exists [], (x :: s), c, b. rewrite !app_nil_r.
      split; [done|]. split; [done|]. split; [done|]. intros [|] ? ? [=].
    + destruct (isLineTerminator x) eqn:Hx; [done|]. intros H.
      apply IH in H as (a & s' & caps' & b' & -> & -> & Hk' & Hmin).
      exists (x :: a), s', caps', b'. split; [done|].
      split; [cbn [rev]; by rewrite <- app_assoc|]. split; [done|].
      intros [|y a1] z a2 [= <- E].
      * subst a. exists b. exact Hk.
      * by apply (Hmin a1 z a2).
Qed.

Lemma matchTerms_shortest (ts : list Term) (b : bool) (s : jsstring)
  (caps caps' : list jsstring) :
  literalsAndGroups ts = true ->
  matchTerms (ts ++ [AssertEnd]) b s = Some caps ->
  length caps' = countGroups ts -> Forall lineFree caps' ->
  s = fillCaptures ts caps' ->
  shortestFirst caps caps'.
Proof.
  revert b s caps caps'. induction ts as [|t ts IH]; intros b s caps caps' Hts Hm Hlen Hlf Hs.
  - destruct caps, caps'; simpl; done.
  - simpl in Hts. apply andb_true_iff in Hts as [Ht Hts].
    destruct t; try done; cbn [app matchTerms fillCaptures] in Hm, Hs.
    + subst s. rewrite N.eqb_refl in Hm. by eapply IH.
    + destruct caps' as [|a' r']; [done|].
      apply Forall_cons in Hlf as [Ha' Hlf]. simpl in Hlen.
      apply lazyGroup_minimal in Hm as (a & s' & caps0 & b0 & Hsplit & -> & Hk & Hmin).
      rewrite Hs in Hsplit. symmetry in Hsplit. cbn [app rev] in *.
      apply app_eq_inv in Hsplit as [(m & -> & Hrest)|(m & -> & Hrest)].
      * destruct m as [|x m].
        -- right. rewrite app_nil_r. split; [done|].
           eapply IH; [done|exact Hk|lia|done|]. by rewrite Hrest.
        -- destruct (Hmin a' x m eq_refl) as [b1 Hnone].
           assert (Hsome : is_Some (matchTerms (ts ++ [AssertEnd]) b1 (fillCaptures ts r'))).
           { apply matchTerms_complete; [done|lia|done]. }
           rewrite Hrest in Hsome. cbn [app] in Hsome. rewrite Hnone in Hsome.
           by destruct Hsome.
      * destruct m as [|x m].
        -- right. rewrite app_nil_r. split; [done|].
           eapply IH; [done|exact Hk|lia|done|]. by rewrite Hrest.
        -- left. rewrite length_app. simpl. lia.
Qed.

(** X13.  For a non-empty template and a non-empty body, arguments are
    returned exactly when the body is an instance of the template: the text
    that the regex spells with some line-free texts, one for each
    placeholder match, in its groups.  Otherwise the result is [null]. *)
Theorem arguments_found_iff_instance
  (template inputString : jsstring) (regex : list Term) :
  template <> [] -> inputString <> [] ->
  parse (regexSource template) = Some regex ->
  ((exists captures,
       length captures = length (placeholderMatches template)
       ∧ Forall lineFree captures
       ∧ inputString = fillCaptures regex captures)
   <-> exists result,
        extractArgumentsWithOrder template inputString = Return (Some result))
  ∧ ((~ exists captures,
         length captures = length (placeholderMatches template)
         ∧ Forall lineFree captures
         ∧ inputString = fillCaptures regex captures)
     <-> extractArgumentsWithOrder template inputString = Return None).
Proof.
  intros Ht Hs Hparse. rewrite parse_regexSource in Hparse. injection Hparse as <-.
  rewrite extract_unfold by done.
  assert (Hiff : (exists captures,
       length captures = length (placeholderMatches template)
       ∧ Forall lineFree captures
       ∧ inputString = fillCaptures (regexOf template) captures)
     <-> is_Some (matchTerms (regexBody template) true inputString)).
  { split.
    - intros (caps & Hlen & Hlf & ->). rewrite fillCaptures_regexOf.
      unfold regexBody. rewrite fillCaptures_end.
      apply matchTerms_complete; [apply literalsAndGroups_terms| |done].
      rewrite Hlen, <- countGroups_regexOf. unfold regexOf. cbn [countGroups].
      rewrite countGroups_app. simpl. lia.
    - intros [caps Hm]. exists caps.
      pose proof (matchTerms_length _ _ _ _ Hm) as Hlen.
      apply matchTerms_sound in Hm as (rest & Hin & Hlf & Hend).
      rewrite Hend in Hin by (unfold regexBody; apply last_snoc).
      rewrite app_nil_r in Hin.
      split; [|by split]. by rewrite Hlen, <- countGroups_regexOf. }
  rewrite Hiff. destruct (matchTerms _ _ _) as [caps|].
  - split; split; try done; eauto. intros H. destruct H. eauto.
  - split; split; try done; try by intros [? ?].
Qed.

Lemma arguments_found_iff_instance_witness :
  ((exists captures,
       length captures = length (placeholderMatches (str "\frac{#1}{#2}"))
       ∧ Forall lineFree captures
       ∧ str "\frac{a}{b+c}" = fillCaptures (regexOf (str "\frac{#1}{#2}")) captures)
   <-> exists result,
        extractArgumentsWithOrder (str "\frac{#1}{#2}") (str "\frac{a}{b+c}")
        = Return (Some result))
  ∧ ((~ exists captures,
         length captures = length (placeholderMatches (str "\frac{#1}{#2}"))
         ∧ Forall lineFree captures
         ∧ str "\frac{a}{b+c}" = fillCaptures (regexOf (str "\frac{#1}{#2}")) captures)
     <-> extractArgumentsWithOrder (str "\frac{#1}{#2}") (str "\frac{a}{b+c}")
         = Return None).
Proof.
  apply (arguments_found_iff_instance (str "\frac{#1}{#2}") (str "\frac{a}{b+c}")
           (regexOf (str "\frac{#1}{#2}"))); [done|done|reflexivity].
Defined.

(** X14.  Among all the ways to read the body as an instance of the
    template, the match is the one whose groups are shortest first: compared
    with any other such reading, the first group that differs holds a
    shorter text in the match. *)
Theorem match_takes_shortest_first
  (template inputString : jsstring) (regex : list Term)
  (matchResult others : list jsstring) :
  parse (regexSource template) = Some regex ->
  exec regex inputString = Some matchResult ->
  length others = length matchResult ->
  Forall lineFree others ->
  inputString = fillCaptures regex others ->
  shortestFirst matchResult others.
Proof.
  intros Hparse Hexec Hlen Hlf Hin.
  rewrite parse_regexSource in Hparse. injection Hparse as <-.
  rewrite exec_regexOf in Hexec.
  pose proof (matchTerms_length _ _ _ _ Hexec) as Hn.
  unfold regexBody in Hexec, Hn. rewrite countGroups_app in Hn. simpl in Hn.
  eapply matchTerms_shortest; [apply literalsAndGroups_terms|exact Hexec|lia|done|].
  rewrite Hin, fillCaptures_regexOf. unfold regexBody. apply fillCaptures_end.
Qed.

Lemma match_takes_shortest_first_witness :
  shortestFirst [str "a"; str "b,c"] [str "a,b"; str "c"].
Proof.
  apply (match_takes_shortest_first (str "#1,#2") (str "a,b,c")
           (regexOf (str "#1,#2")) [str "a"; str "b,c"] [str "a,b"; str "c"]);
    [reflexivity|reflexivity|reflexivity|by repeat constructor|reflexivity].
Defined.
